(** * MobileNetV2 with quantization-aware convolutions

    A shallow embedding of [models/mobilenetv2.py]: the channel rounder
    [_make_divisible], the stage constructors [conv_3x3_bn] and
    [conv_1x1_bn], the [InvertedResidual] block and the [MobileNetV2]
    network (constructor and forward pass).

    Python's [int] is [Z].  The [float] values that occur (targets of
    the channel rounder, the width multiplier, expansion ratios) are
    modelled as rationals [Q], so that [0.9 * v] is the rational
    [9/10 * v].  The program computes on doubles; the two agree on the
    integer targets the builder passes, and [_make_divisible_double]
    below is the rounder on doubles, where they can be compared.
    Exceptions are an error monad. *)

From Stdlib Require Import ZArith QArith Qround Qabs List Bool Lia Lqa.
From Stdlib Require PrimFloat FloatOps SpecFloat Uint63.
Import ListNotations.

Local Open Scope Z_scope.

(** ** Exceptions and the error monad *)

Inductive exn : Type :=
| AssertionError
| IndexError
| TypeError
| ValueError
| RuntimeError.

Inductive result (A : Type) : Type :=
| Ok (a : A)
| Raise (e : exn).

Arguments Ok {A} a.
Arguments Raise {A} e.

Definition bind {A B : Type} (m : result A) (k : A -> result B) : result B :=
  match m with
  | Ok a => k a
  | Raise e => Raise e
  end.

Declare Scope result_scope.
Delimit Scope result_scope with result.
Notation "x <- m ;; k" := (bind m (fun x => k))
  (at level 61, m at next level, right associativity) : result_scope.
Notation "' p <- m ;; k" := (bind m (fun x => match x with p => k end))
  (at level 61, p pattern, m at next level, right associativity) : result_scope.
Local Open Scope result_scope.

(** ** Python numeric built-ins *)

(** [int(x)] on a float: truncation toward zero. *)
Definition py_int (x : Q) : Z := Z.quot (Qnum x) (Zpos (Qden x)).

(** [round(x)] with one argument: nearest integer, ties to the even one. *)
Definition py_round (x : Q) : Z :=
  let f := Qfloor x in
  match Qcompare (x - inject_Z f) (1 # 2) with
  | Lt => f
  | Gt => f + 1
  | Eq => if Z.even f then f else f + 1
  end.

(** [range(n)]: the integers [0, 1, ..., n-1]; empty when [n <= 0]. *)
Definition range (n : Z) : list Z := map Z.of_nat (seq 0 (Z.to_nat n)).

(** A [for] loop over a list whose body may raise, threading the
    variables the body assigns. *)
Fixpoint for_loop {A S : Type} (xs : list A) (body : A -> S -> result S) (s : S)
  : result S :=
  match xs with
  | [] => Ok s
  | x :: xs' => s' <- body x s ;; for_loop xs' body s'
  end.

(** ** The channel rounder *)

(** [_make_divisible(v, divisor, min_value=None)] in exact arithmetic.
    [divisor / 2] is Python's true division; [//] is floor division
    ([Z.div]).  The divisor is not zero: every call in the file passes 4
    or 8.  On an integer target [v] with [v + divisor < 2^48] (with the
    divisors 4 and 8 of the file, [v < 2^52]) every float operation of
    the program is exact or is rounded by less than the margin of the
    comparison, and this is the value the program returns; on other
    targets the product [0.9 * v] of the program is a rounded double and
    the comparison can go the other way. *)
Definition _make_divisible (v : Q) (divisor : Z) (min_value : option Z) : Z :=
  let min_value := match min_value with None => divisor | Some m => m end in
  let new_v :=
    Z.max min_value
      (py_int (v + inject_Z divisor / 2) / divisor * divisor) in
  if Qlt_le_dec (inject_Z new_v) ((9 # 10) * v)
  then new_v + divisor
  else new_v.

(** *** The rounder on doubles *)

(** The value of a finite double. *)
Definition Q_of_float (x : PrimFloat.float) : option Q :=
  match FloatOps.Prim2SF x with
  | SpecFloat.S754_zero _ => Some 0%Q
  | SpecFloat.S754_finite s m e =>
      let z := if s then Z.neg m else Z.pos m in
      Some (if 0 <=? e then inject_Z (z * 2 ^ e) else z # Z.to_pos (2 ^ (- e)))
  | _ => None
  end.

(** [float(n)] for an integer [0 <= n < 2^53], where it is exact. *)
Definition float_of_Z (n : Z) : PrimFloat.float := PrimFloat.of_uint63 (Uint63.of_Z n).

(** [int(x)] on a double: truncation toward zero; it raises on an
    infinity and on NaN. *)
Definition float_int (x : PrimFloat.float) : option Z := option_map py_int (Q_of_float x).

(** [_make_divisible(v, divisor, min_value)] on a double [v] and integers
    [0 < divisor < 2^53] and [min_value]: the sum, the quotient
    [divisor / 2] and the product with the literal [0.9] are operations on
    doubles, the comparison of the integer [new_v] with a double is exact.
    [None] when [int] raises. *)
Definition _make_divisible_double (v : PrimFloat.float) (divisor : Z) (min_value : option Z)
  : option Z :=
  let min_value := match min_value with None => divisor | Some m => m end in
  match float_int (PrimFloat.add v (PrimFloat.div (float_of_Z divisor) (float_of_Z 2))),
        Q_of_float (PrimFloat.mul (PrimFloat.div (float_of_Z 9) (float_of_Z 10)) v) with
  | Some i, Some b =>
      let new_v := Z.max min_value (i / divisor * divisor) in
      Some (if Qlt_le_dec (inject_Z new_v) b then new_v + divisor else new_v)
  | _, _ => None
  end.

(** The exact rounder and the rounder on doubles agree at an integer
    target. *)
Definition double_agrees (divisor v : Z) : bool :=
  match _make_divisible_double (float_of_Z v) divisor None with
  | Some r => r =? _make_divisible (inject_Z v) divisor None
  | None => false
  end.

(** *** The rounder in the words of its description *)

(** The largest multiple of [d] that does not exceed [x]. *)
Definition floor_multiple (x : Q) (d m : Z) : Prop :=
  (d | m) /\ (inject_Z m <= x)%Q /\ (x < inject_Z (m + d))%Q.

(** The rounding step as the prose describes it: an integer [m] is a
    multiple of [d] nearest to [x] when no other multiple of [d] is
    strictly closer to [x]. *)
Definition nearest_multiple (x : Q) (d m : Z) : Prop :=
  (d | m) /\ forall k : Z, (Qabs (x - inject_Z m) <= Qabs (x - inject_Z (k * d)))%Q.

(** The value computed the way the prose describes it, for a given
    choice [m] of nearest multiple of [d] to [v + d/2]. *)
Definition spec_make_divisible (v : Q) (d m : Z) : Z :=
  let new_v := Z.max d m in
  if Qlt_le_dec (inject_Z new_v) ((9 # 10) * v) then new_v + d else new_v.

(** ** Module descriptions *)

(** [nn.Conv2d(in_channels, out_channels, kernel_size, stride=, padding=,
    groups=, bias=)]: the arguments of the call. *)
Record Conv2d : Type := {
  in_channels : Z;
  out_channels : Z;
  kernel_size : Z;
  stride : Z;
  padding : Z;
  groups : Z;
  bias : bool
}.

(** Modelled from the spec: the class [LQ_Conv2d] of the module
    [functions], which is not part of the sources.  Sections 3 and 4.2
    describe it as a convolution that owns its stride, padding and groups
    and the three quantization switches, fixed at construction.  It is
    called like [nn.Conv2d], whose [groups] defaults to 1.  The record
    holds the arguments of the call.  What the constructor checks about
    them cannot be read from the sources, so the properties of a network
    are stated of a network that a construction returned. *)
Record LQ_Conv2d : Type := {
  lq_conv : Conv2d;
  is_qt : bool;
  lq : bool;
  fwlq : bool
}.

(** [nn.Linear(in_features, out_features)]: the arguments of the call.
    The library rejects a negative [out_features] when the module is
    constructed. *)
Record Linear : Type := {
  in_features : Z;
  out_features : Z
}.

(** The members of an [nn.Sequential] in this file. *)
Inductive Layer : Type :=
| L_Conv2d (c : Conv2d)
| L_LQ_Conv2d (c : LQ_Conv2d)
| L_BatchNorm2d (num_features : Z)
| L_ReLU6 (inplace : bool).

Definition Sequential : Type := list Layer.

(** The number of quantization-aware convolutions of a sequence. *)
Definition is_LQ (l : Layer) : bool :=
  match l with L_LQ_Conv2d _ => true | _ => false end.

Definition count_LQ (s : Sequential) : nat := length (filter is_LQ s).

(** [conv_3x3_bn(inp, oup, stride, is_qt=False, lq=False, fwlq=False)]. *)
Definition conv_3x3_bn (inp oup stride : Z) (is_qt lq fwlq : bool) : Sequential :=
  [ L_Conv2d {| in_channels := inp; out_channels := oup; kernel_size := 3;
                stride := stride; padding := 1; groups := 1; bias := false |};
    L_BatchNorm2d oup;
    L_ReLU6 true ].

(** [conv_1x1_bn(inp, oup, lq=False, is_qt=False, fwlq=False)]. *)
Definition conv_1x1_bn (inp oup : Z) (lq is_qt fwlq : bool) : Sequential :=
  [ L_LQ_Conv2d {| lq_conv := {| in_channels := inp; out_channels := oup;
                                 kernel_size := 1; stride := 1; padding := 0;
                                 groups := 1; bias := false |};
                   is_qt := is_qt; lq := lq; fwlq := fwlq |};
    L_BatchNorm2d oup;
    L_ReLU6 true ].

(** ** The tensor runtime *)

(** The forward passes are written against the operations of the tensor
    runtime.  Every operation may raise.  A module is named by its path in
    the module tree, which is what selects its parameter tensors.  Every
    [nn.ReLU6(inplace=True)] of the file acts on the fresh output of a
    batch normalization, which no other name refers to. *)
Definition path : Type := list nat.

Class TensorRuntime : Type := {
  Tensor : Type;
  (** [nn.Conv2d.forward] *)
  conv2d : path -> Conv2d -> Tensor -> result Tensor;
  (** [LQ_Conv2d.forward]: the output tensor and the auxiliary signal *)
  lq_conv2d : path -> LQ_Conv2d -> Tensor -> result (Tensor * Tensor);
  (** [nn.BatchNorm2d.forward] *)
  batch_norm2d : path -> Z -> Tensor -> result Tensor;
  (** [nn.ReLU6.forward] *)
  relu6 : path -> Tensor -> result Tensor;
  (** [nn.AdaptiveAvgPool2d.forward] *)
  adaptive_avg_pool2d : Z * Z -> Tensor -> result Tensor;
  (** [x.view(x.size(0), -1)] *)
  view_flat : Tensor -> result Tensor;
  (** [nn.Linear.forward] *)
  linear : path -> Linear -> Tensor -> result Tensor;
  (** [x + y] *)
  tensor_add : Tensor -> Tensor -> result Tensor;
  (** [a, b = t] on a tensor [t] *)
  tensor_unpack2 : Tensor -> result (Tensor * Tensor);
  (** [torch.Tensor(data)] on a list of numbers *)
  tensor_of_list : list Z -> Tensor;
  (** [t.cuda()] *)
  cuda : Tensor -> result Tensor
}.

Section Forward.

Context {RT : TensorRuntime}.

(** What a module call returns: a tensor, or a pair of tensors. *)
Inductive Value : Type :=
| V_Tensor (t : Tensor)
| V_Pair (t aux : Tensor).

(** Calling one layer on a tensor. *)
Definition Layer_call (p : path) (l : Layer) (x : Tensor) : result Value :=
  match l with
  | L_Conv2d c => y <- conv2d p c x ;; Ok (V_Tensor y)
  | L_LQ_Conv2d c => '(y, a) <- lq_conv2d p c x ;; Ok (V_Pair y a)
  | L_BatchNorm2d n => y <- batch_norm2d p n x ;; Ok (V_Tensor y)
  | L_ReLU6 _ => y <- relu6 p x ;; Ok (V_Tensor y)
  end.

(** A layer of this file called on a pair raises a type error. *)
Definition Layer_call_value (p : path) (l : Layer) (v : Value) : result Value :=
  match v with
  | V_Tensor x => Layer_call p l x
  | V_Pair _ _ => Raise TypeError
  end.

(** [seq[i]]. *)
Definition Sequential_get (s : Sequential) (i : nat) : result Layer :=
  match nth_error s i with
  | Some l => Ok l
  | None => Raise IndexError
  end.

(** [nn.Sequential.forward] on the members [lo, lo+1, ...] of a sequence
    stored at path [p]: each member is called on the previous output. *)
Fixpoint Sequential_forward_from (p : path) (lo : nat) (s : list Layer) (v : Value)
  : result Value :=
  match s with
  | [] => Ok v
  | l :: s' =>
      v' <- Layer_call_value (p ++ [lo]) l v ;;
      Sequential_forward_from p (S lo) s' v'
  end.

(** [seq[i](v)]. *)
Definition Sequential_index_call (p : path) (s : Sequential) (i : nat) (v : Value)
  : result Value :=
  l <- Sequential_get s i ;; Layer_call_value (p ++ [i]) l v.

(** [seq[lo:hi](v)]; a slice never raises an index error. *)
Definition Sequential_slice_call (p : path) (s : Sequential) (lo hi : nat) (v : Value)
  : result Value :=
  Sequential_forward_from p lo (firstn (hi - lo) (skipn lo s)) v.

(** [seq[lo:](v)]. *)
Definition Sequential_tail_call (p : path) (s : Sequential) (lo : nat) (v : Value)
  : result Value :=
  Sequential_forward_from p lo (skipn lo s) v.

(** [seq(v)]. *)
Definition Sequential_call (p : path) (s : Sequential) (v : Value) : result Value :=
  Sequential_forward_from p 0 s v.

(** [out, _ = v]. *)
Definition unpack2 (v : Value) : result (Tensor * Tensor) :=
  match v with
  | V_Pair t a => Ok (t, a)
  | V_Tensor t => tensor_unpack2 t
  end.

(** A value used where a tensor is required. *)
Definition as_tensor (v : Value) : result Tensor :=
  match v with
  | V_Tensor t => Ok t
  | V_Pair _ _ => Raise TypeError
  end.

End Forward.

(** ** The inverted residual block *)

Module InvertedResidual.

Record t : Type := {
  identity : bool;
  expand_ratio : Q;
  conv : Sequential
}.

(** [InvertedResidual.__init__(inp, oup, stride, expand_ratio, is_qt, lq, fwlq)]. *)
Definition __init__ (inp oup stride : Z) (expand_ratio : Q) (is_qt lq fwlq : bool)
  : result t :=
  if negb ((stride =? 1) || (stride =? 2)) then Raise AssertionError else
  let hidden_dim := py_round (inject_Z inp * expand_ratio) in
  let identity := (stride =? 1) && (inp =? oup) in
  if Qeq_bool expand_ratio 1 then
    Ok {| identity := identity;
          expand_ratio := expand_ratio;
          conv :=
            [ (* dw *)
              L_LQ_Conv2d {| lq_conv := {| in_channels := inp; out_channels := hidden_dim;
                                           kernel_size := 3; stride := stride; padding := 1;
                                           groups := hidden_dim; bias := false |};
                             is_qt := is_qt; lq := lq; fwlq := fwlq |};
              L_BatchNorm2d hidden_dim;
              L_ReLU6 true;
              (* pw-linear *)
              L_LQ_Conv2d {| lq_conv := {| in_channels := hidden_dim; out_channels := oup;
                                           kernel_size := 1; stride := 1; padding := 0;
                                           groups := 1; bias := false |};
                             is_qt := is_qt; lq := lq; fwlq := fwlq |};
              L_BatchNorm2d oup ] |}
  else
    Ok {| identity := identity;
          expand_ratio := expand_ratio;
          conv :=
            [ (* pw *)
              L_LQ_Conv2d {| lq_conv := {| in_channels := inp; out_channels := hidden_dim;
                                           kernel_size := 1; stride := 1; padding := 0;
                                           groups := 1; bias := false |};
                             is_qt := is_qt; lq := lq; fwlq := fwlq |};
              L_BatchNorm2d hidden_dim;
              L_ReLU6 true;
              (* dw *)
              L_LQ_Conv2d {| lq_conv := {| in_channels := hidden_dim; out_channels := hidden_dim;
                                           kernel_size := 3; stride := stride; padding := 1;
                                           groups := hidden_dim; bias := false |};
                             is_qt := is_qt; lq := lq; fwlq := fwlq |};
              L_BatchNorm2d hidden_dim;
              L_ReLU6 true;
              (* pw-linear *)
              L_LQ_Conv2d {| lq_conv := {| in_channels := hidden_dim; out_channels := oup;
                                           kernel_size := 1; stride := 1; padding := 0;
                                           groups := 1; bias := false |};
                             is_qt := is_qt; lq := lq; fwlq := fwlq |};
              L_BatchNorm2d oup ] |}.

Section Forward.

Context {RT : TensorRuntime}.

(** The first part of [forward]: the value of [out] when the final
    [if self.identity] is reached.  [p] is the path of the block, so that
    [self.conv[i]] is the module at [p ++ [i]]. *)
Definition stages (p : path) (self : t) (x : Tensor) : result Value :=
  if Qeq_bool (expand_ratio self) 1 then
    v <- Sequential_index_call p (conv self) 0 (V_Tensor x) ;;
    '(out, _) <- unpack2 v ;;
    out <- Sequential_slice_call p (conv self) 1 3 (V_Tensor out) ;;
    v <- Sequential_index_call p (conv self) 3 out ;;
    '(out, _) <- unpack2 v ;;
    Sequential_index_call p (conv self) 4 (V_Tensor out)
  else
    v <- Sequential_index_call p (conv self) 0 (V_Tensor x) ;;
    '(out, _) <- unpack2 v ;;
    out <- Sequential_slice_call p (conv self) 1 3 (V_Tensor out) ;;
    v <- Sequential_index_call p (conv self) 3 out ;;
    '(out, _) <- unpack2 v ;;
    out <- Sequential_slice_call p (conv self) 4 6 (V_Tensor out) ;;
    v <- Sequential_index_call p (conv self) 6 out ;;
    '(out, _) <- unpack2 v ;;
    Ok (V_Tensor out).

(** [InvertedResidual.forward(self, x)]. *)
Definition forward (p : path) (self : t) (x : Tensor) : result Value :=
  out <- stages p self x ;;
  if identity self then
    o <- as_tensor out ;;
    y <- tensor_add x o ;;
    Ok (V_Tensor y)
  else
    Ok out.

End Forward.

End InvertedResidual.

(** ** The network *)

(** The members of [self.features]. *)
Inductive Module_ : Type :=
| M_Sequential (s : Sequential)
| M_InvertedResidual (b : InvertedResidual.t).

Module MobileNetV2.

Record t : Type := {
  cfgs : list (Z * Z * Z * Z);
  features : list Module_;
  conv : Sequential;
  avgpool : Z * Z;
  classifier : Linear
}.

(** The stage table assigned to [self.cfgs]: rows [t, c, n, s]. *)
Definition the_cfgs : list (Z * Z * Z * Z) :=
  [ (1,  16, 1, 1);
    (6,  24, 2, 2);
    (6,  32, 3, 2);
    (6,  64, 4, 2);
    (6,  96, 3, 1);
    (6, 160, 3, 2);
    (6, 320, 1, 1) ].

(** [4 if width_mult == 0.1 else 8]. *)
Definition divisor_of (width_mult : Q) : Z :=
  if Qeq_bool width_mult (1 # 10) then 4 else 8.

(** The body of the inner loop [for i in range(n)], on the variables
    [layers] and [input_channel]. *)
Definition repeat_body (t s output_channel : Z) (is_qt lq fwlq : bool)
    (i : Z) (st : list Module_ * Z) : result (list Module_ * Z) :=
  let '(layers, input_channel) := st in
  b <- InvertedResidual.__init__ input_channel output_channel
         (if i =? 0 then s else 1) (inject_Z t) is_qt lq fwlq ;;
  Ok (layers ++ [M_InvertedResidual b], output_channel).

(** The body of the outer loop [for t, c, n, s in self.cfgs]. *)
Definition row_body (width_mult : Q) (is_qt lq fwlq : bool)
    (row : Z * Z * Z * Z) (st : list Module_ * Z) : result (list Module_ * Z) :=
  let '(t, c, n, s) := row in
  let output_channel :=
    _make_divisible (inject_Z c * width_mult) (divisor_of width_mult) None in
  for_loop (range n) (repeat_body t s output_channel is_qt lq fwlq) st.

(** [1280 * width_mult] rounded [if width_mult > 1.0 else 1280]. *)
Definition head_channel (width_mult : Q) : Z :=
  if Qlt_le_dec 1 width_mult
  then _make_divisible (1280 * width_mult) (divisor_of width_mult) None
  else 1280.

(** The body of [__init__] as a function of the local [width_mult] and of
    the stage table.  The call of [_initialize_weights] that ends it only
    writes the values of parameter tensors and is not part of the module
    description. *)
Definition build (width_mult : Q) (table : list (Z * Z * Z * Z))
    (num_classes : Z) (is_qt lq fwlq : bool) (index : list Z) : result t :=
  (* building first layer *)
  let input_channel :=
    _make_divisible (32 * width_mult) (divisor_of width_mult) None in
  let layers := [M_Sequential (conv_3x3_bn 3 input_channel 2 is_qt lq fwlq)] in
  (* building inverted residual blocks *)
  '(layers, input_channel) <-
    for_loop table (row_body width_mult is_qt lq fwlq) (layers, input_channel) ;;
  (* building last several layers *)
  let output_channel := head_channel width_mult in
  Ok {| cfgs := table;
        features := layers;
        conv := conv_1x1_bn input_channel output_channel lq is_qt fwlq;
        avgpool := (1, 1);
        classifier := {| in_features := output_channel; out_features := num_classes |} |}.

(** [MobileNetV2.__init__(num_classes=1000, is_qt=False, lq=False,
    fwlq=False, index=[])]: [width_mult = 1]. *)
Definition __init__ (num_classes : Z) (is_qt lq fwlq : bool) (index : list Z)
  : result t :=
  let width_mult := 1%Q in
  build width_mult the_cfgs num_classes is_qt lq fwlq index.

Section Forward.

Context {RT : TensorRuntime}.

(** Calling a member of [self.features], stored at path [p]. *)
Definition Module_call (p : path) (m : Module_) (v : Value) : result Value :=
  match m with
  | M_Sequential s => Sequential_call p s v
  | M_InvertedResidual b =>
      x <- as_tensor v ;; InvertedResidual.forward p b x
  end.

(** [self.features(x)]: the members in order, the [i]-th at [p ++ [i]]. *)
Fixpoint features_forward_from (p : path) (i : nat) (ms : list Module_) (v : Value)
  : result Value :=
  match ms with
  | [] => Ok v
  | m :: ms' =>
      v' <- Module_call (p ++ [i]) m v ;;
      features_forward_from p (S i) ms' v'
  end.

(** The tensor pipeline of [forward]: everything before the [return]. *)
Definition logits (self : t) (x : Tensor) : result Tensor :=
  x <- features_forward_from [0%nat] 0 (features self) (V_Tensor x) ;;
  v <- Sequential_index_call [1%nat] (conv self) 0 x ;;
  '(x, _) <- unpack2 v ;;
  x <- Sequential_tail_call [1%nat] (conv self) 1 (V_Tensor x) ;;
  x <- as_tensor x ;;
  x <- adaptive_avg_pool2d (avgpool self) x ;;
  x <- view_flat x ;;
  linear [3%nat] (classifier self) x.

(** [MobileNetV2.forward(self, x)]. *)
Definition forward (self : t) (x : Tensor) : result (Tensor * Tensor) :=
  x <- logits self x ;;
  aux <- cuda (tensor_of_list [0]) ;;
  Ok (x, aux).

End Forward.

End MobileNetV2.

(** [mobilenetv2_cifar(num_classes, is_qt, lq, index, fwlq)]. *)
Definition mobilenetv2_cifar (num_classes : Z) (is_qt lq : bool) (index : list Z)
    (fwlq : bool) : result MobileNetV2.t :=
  MobileNetV2.__init__ num_classes is_qt lq fwlq index.

(** ** A runtime that computes shapes *)

(** Tensors are represented by their shapes; every operation checks the
    shape of its argument as the runtime documents it and raises
    otherwise. *)
Module ShapeRuntime.

Definition shape : Type := list Z.

(** Output extent of a convolution along one spatial axis (dilation 1). *)
Definition conv_extent (n k s p : Z) : Z := (n + 2 * p - k) / s + 1.

Definition conv2d_shape (c : Conv2d) (x : shape) : result shape :=
  match x with
  | [n; ch; h; w] =>
      if (ch =? in_channels c) && (0 <? groups c) && (0 <? stride c)
         && (in_channels c mod groups c =? 0)
         && (out_channels c mod groups c =? 0)
         && (kernel_size c <=? h + 2 * padding c)
         && (kernel_size c <=? w + 2 * padding c)
      then Ok [n; out_channels c;
               conv_extent h (kernel_size c) (stride c) (padding c);
               conv_extent w (kernel_size c) (stride c) (padding c)]
      else Raise RuntimeError
  | _ => Raise RuntimeError
  end.

(** Modelled from the spec: [LQ_Conv2d.forward] of the module [functions],
    which is not part of the sources.  Section 4.2: the output has the
    shape an ordinary strided, grouped, padded convolution gives, and it
    comes with a scalar auxiliary signal, as a pair. *)
Definition lq_conv2d_shape (c : LQ_Conv2d) (x : shape) : result (shape * shape) :=
  y <- conv2d_shape (lq_conv c) x ;; Ok (y, []).

(** [nn.BatchNorm2d.forward] of a module in training mode, the mode a
    module is constructed in.  The input must have four axes; it must
    hold more than one value per channel, the product of its extents other
    than the channel axis not being 1; and its channel count must be that
    of the module.  The checks are made in this order. *)
Definition batch_norm2d_shape (num_features : Z) (x : shape) : result shape :=
  match x with
  | [n; ch; h; w] =>
      if n * h * w =? 1 then Raise ValueError
      else if ch =? num_features then Ok x
      else Raise RuntimeError
  | _ => Raise ValueError
  end.

Definition adaptive_avg_pool2d_shape (out : Z * Z) (x : shape) : result shape :=
  match x with
  | [n; ch; h; w] => Ok [n; ch; fst out; snd out]
  | _ => Raise RuntimeError
  end.

(** [x.view(x.size(0), -1)]: the remaining extent is inferred, which
    needs a non-empty leading extent. *)
Definition view_flat_shape (x : shape) : result shape :=
  match x with
  | n :: rest => if 0 <? n then Ok [n; fold_right Z.mul 1 rest] else Raise RuntimeError
  | [] => Raise RuntimeError
  end.

Definition linear_shape (l : Linear) (x : shape) : result shape :=
  match rev x with
  | last :: front =>
      if last =? in_features l then Ok (rev (out_features l :: front))
      else Raise RuntimeError
  | [] => Raise RuntimeError
  end.

(** Addition of two tensors of one shape (broadcasting is left out). *)
Definition add_shape (x y : shape) : result shape :=
  if list_eq_dec Z.eq_dec x y then Ok x else Raise RuntimeError.

(** Unpacking a tensor into two names iterates its leading axis. *)
Definition unpack2_shape (x : shape) : result (shape * shape) :=
  match x with
  | 2 :: rest => Ok (rest, rest)
  | _ => Raise ValueError
  end.

#[export] Instance runtime : TensorRuntime := {|
  Tensor := shape;
  conv2d := fun _ => conv2d_shape;
  lq_conv2d := fun _ => lq_conv2d_shape;
  batch_norm2d := fun _ => batch_norm2d_shape;
  relu6 := fun _ x => Ok x;
  adaptive_avg_pool2d := adaptive_avg_pool2d_shape;
  view_flat := view_flat_shape;
  linear := fun _ => linear_shape;
  tensor_add := add_shape;
  tensor_unpack2 := unpack2_shape;
  tensor_of_list := fun l => [Z.of_nat (length l)];
  cuda := fun x => Ok x
|}.

End ShapeRuntime.


(** ** A runtime that records the modules called *)

(** A tensor is represented by the paths of the modules whose calls
    produced it, in the order of the calls. *)
Module TraceRuntime.

Definition trace : Type := list path.

#[export] Instance runtime : TensorRuntime := {|
  Tensor := trace;
  conv2d := fun p _ x => Ok (x ++ [p]);
  lq_conv2d := fun p _ x => Ok (x ++ [p], []);
  batch_norm2d := fun p _ x => Ok (x ++ [p]);
  relu6 := fun p x => Ok (x ++ [p]);
  adaptive_avg_pool2d := fun _ x => Ok x;
  view_flat := fun x => Ok x;
  linear := fun p _ x => Ok (x ++ [p]);
  tensor_add := fun x y => Ok (x ++ y);
  tensor_unpack2 := fun _ => Raise ValueError;
  tensor_of_list := fun _ => [];
  cuda := fun x => Ok x
|}.

End TraceRuntime.

(** ** Vocabulary of the properties *)

(** The arguments [(inp, oup, stride, expand_ratio)] of one call of the
    block constructor by the network builder. *)
Definition block_call : Type := (Z * Z * Z * Z)%type.

(** The blocks in the order of a list of calls; the first call that
    raises ends the construction. *)
Fixpoint construct_all (is_qt lq fwlq : bool) (calls : list block_call)
  : result (list InvertedResidual.t) :=
  match calls with
  | [] => Ok []
  | (inp, oup, stride, t) :: calls' =>
      b <- InvertedResidual.__init__ inp oup stride (inject_Z t) is_qt lq fwlq ;;
      bs <- construct_all is_qt lq fwlq calls' ;;
      Ok (b :: bs)
  end.

(** The calls one row [(t, c, n, s)] of the stage table asks for when the
    running channel count is [channel], in the words of the table's
    invariant: a first block with stride [s] fed by the running channel
    count, then blocks with stride 1 fed by the rounded output channel
    count; and the running channel count after the row. *)
Definition row_calls (width_mult : Q) (row : Z * Z * Z * Z) (channel : Z)
  : list block_call * Z :=
  let '(t, c, n, s) := row in
  let output_channel :=
    _make_divisible (inject_Z c * width_mult) (MobileNetV2.divisor_of width_mult) None in
  match Z.to_nat n with
  | O => ([], channel)
  | S k =>
      ((channel, output_channel, s, t) :: repeat (output_channel, output_channel, 1, t) k,
       output_channel)
  end.

(** The calls of a whole table, row after row. *)
Fixpoint table_calls (width_mult : Q) (table : list (Z * Z * Z * Z)) (channel : Z)
  : list block_call * Z :=
  match table with
  | [] => ([], channel)
  | row :: rows =>
      let '(cs, ch) := row_calls width_mult row channel in
      let '(cs', ch') := table_calls width_mult rows ch in
      (cs ++ cs', ch')
  end.

(** The quantization-aware convolutions of a network, in module order. *)
Definition LQ_of_layer (l : Layer) : list LQ_Conv2d :=
  match l with L_LQ_Conv2d c => [c] | _ => [] end.

Definition LQ_of_module (m : Module_) : list LQ_Conv2d :=
  match m with
  | M_Sequential s => flat_map LQ_of_layer s
  | M_InvertedResidual b => flat_map LQ_of_layer (InvertedResidual.conv b)
  end.

Definition LQ_of_network (net : MobileNetV2.t) : list LQ_Conv2d :=
  flat_map LQ_of_module (MobileNetV2.features net)
  ++ flat_map LQ_of_layer (MobileNetV2.conv net).

(** The head width as the prose states it: the rounded value of
    [1280 * width_mult], or exactly 1280 when [width_mult > 1]. *)
Definition prose_head_channel (width_mult : Q) : Z :=
  if Qlt_le_dec 1 width_mult
  then 1280
  else _make_divisible (1280 * width_mult) (MobileNetV2.divisor_of width_mult) None.

(** A runtime whose quantization-aware convolutions report another
    auxiliary signal: [g] rewrites the signal of every call, and nothing
    else changes. *)
Definition with_aux (RT : TensorRuntime)
    (g : path -> LQ_Conv2d -> @Tensor RT -> @Tensor RT -> @Tensor RT)
  : TensorRuntime := {|
  Tensor := @Tensor RT;
  conv2d := @conv2d RT;
  lq_conv2d := fun p c x => '(y, a) <- @lq_conv2d RT p c x ;; Ok (y, g p c x a);
  batch_norm2d := @batch_norm2d RT;
  relu6 := @relu6 RT;
  adaptive_avg_pool2d := @adaptive_avg_pool2d RT;
  view_flat := @view_flat RT;
  linear := @linear RT;
  tensor_add := @tensor_add RT;
  tensor_unpack2 := @tensor_unpack2 RT;
  tensor_of_list := @tensor_of_list RT;
  cuda := @cuda RT
|}.

(** Two values that agree on their tensor; the second component of a
    pair is left free. *)
Definition same_tensor {RT : TensorRuntime}
    {g : path -> LQ_Conv2d -> Tensor -> Tensor -> Tensor}
    (v : @Value RT) (v' : @Value (with_aux RT g)) : Prop :=
  match v, v' with
  | V_Tensor t, V_Tensor t' => t = t'
  | V_Pair t _, V_Pair t' _ => t = t'
  | _, _ => False
  end.

(** Two computations that raise the same exception or return related
    results. *)
Definition same_result {A B : Type} (R : A -> B -> Prop)
    (m : result A) (m' : result B) : Prop :=
  match m, m' with
  | Ok a, Ok b => R a b
  | Raise e, Raise e' => e = e'
  | _, _ => False
  end.

(** Bookkeeping of shapes along a list of block calls: the calls are
    chained from channel count [c] when each is fed the output channel
    count of the one before, with positive input channel count and
    expansion ratio. *)
Fixpoint chained (c : Z) (calls : list block_call) : bool :=
  match calls with
  | [] => true
  | (inp, oup, stride, t) :: rest =>
      (inp =? c) && (0 <? inp) && (0 <? t) && chained oup rest
  end.

(** The channel count after the calls. *)
Definition last_channel (c : Z) (calls : list block_call) : Z :=
  fold_left (fun _ (call : block_call) => let '(_, oup, _, _) := call in oup) calls c.

(** A spatial extent after the depthwise convolutions of the calls. *)
Definition extent_after (calls : list block_call) (h : Z) : Z :=
  fold_left (fun h (call : block_call) =>
               let '(_, _, stride, _) := call in ShapeRuntime.conv_extent h 3 stride 1) calls h.

(** A row [(t, c, n, s)] of a stage table passes the stride check of the
    block constructor: it asks for no block, or its stride is 1 or 2. *)
Definition row_stride_ok (row : Z * Z * Z * Z) : bool :=
  let '(_, _, n, s) := row in (n <=? 0) || (s =? 1) || (s =? 2).

(** The stride of a call is 1 or 2. *)
Definition call_stride_ok (call : block_call) : bool :=
  let '(_, _, stride, _) := call in (stride =? 1) || (stride =? 2).

(** * Properties *)

(** ** Python numerics *)

Lemma inject_Z_sub (x y : Z) : inject_Z (x - y) = (inject_Z x - inject_Z y)%Q.
Proof.
  unfold Qminus, Z.sub. rewrite inject_Z_plus, inject_Z_opp. reflexivity.
Qed.

Lemma py_int_floor (x : Q) : (0 <= x)%Q -> py_int x = Qfloor x.
Proof.
  destruct x as [n d]; unfold py_int, Qfloor, Qle; simpl; intros H.
  apply Z.quot_div_nonneg; lia.
Qed.


Lemma py_round_Z (z : Z) : py_round (inject_Z z) = z.
Proof.
  unfold py_round. rewrite Qfloor_Z.
  replace ((inject_Z z - inject_Z z ?= 1 # 2)%Q) with Lt; [reflexivity|].
  symmetry. apply Qlt_alt.
  assert (E : (inject_Z z - inject_Z z == 0)%Q) by ring.
  rewrite E. reflexivity.
Qed.


Example py_int_truncates :
  py_int (7 # 2) = 3 /\ py_int (- (7 # 2)) = -3 /\ py_int 21 = 21.
Proof. repeat split. Qed.

Example py_round_ties_to_even :
  py_round (5 # 2) = 2 /\ py_round (7 # 2) = 4 /\ py_round (- (1 # 2)) = 0 /\
  py_round (8 # 3) = 3.
Proof. repeat split. Qed.

(** ** The channel rounder *)

(** The channel counts of the stage table, the stem and the head are
    multiples of 8 and are left as they are. *)
Example make_divisible_table :
  map (fun c => _make_divisible (inject_Z c) 8 None)
      [32; 16; 24; 32; 64; 96; 160; 320; 1280]
  = [32; 16; 24; 32; 64; 96; 160; 320; 1280].
Proof. reflexivity. Qed.

(** The second addition of the divisor: 8 is below [0.9 * 9]. *)
Example make_divisible_bump :
  _make_divisible 9 8 None = 16 /\ _make_divisible 8 8 None = 8 /\
  _make_divisible 3 4 None = 4 /\ _make_divisible (1 # 2) 8 None = 8.
Proof. repeat split. Qed.

(** On doubles the rounder returns the same values at the integer
    targets up to 4096, for both divisors of the file. *)
Example make_divisible_double_agrees :
  forallb (fun d => forallb (double_agrees d) (map Z.of_nat (seq 1 4096))) [4; 8] = true.
Proof. vm_compute. reflexivity. Qed.

(** Away from the integers the two differ.  The double nearest to
    4.444444444444445 is [5003999585967218 / 2^50]; nine tenths of it is
    above 4, but the product on doubles is rounded to 4, so the program
    returns 4, which is below nine tenths of the target. *)
Example make_divisible_double_rounding :
  let v := PrimFloat.div (float_of_Z 5003999585967218) (float_of_Z (2 ^ 50)) in
  Q_of_float v = Some (5003999585967218 # 1125899906842624) /\
  _make_divisible_double v 4 None = Some 4 /\
  _make_divisible (5003999585967218 # 1125899906842624) 4 None = 8 /\
  (4 < (9 # 10) * (5003999585967218 # 1125899906842624))%Q.
Proof. vm_compute. repeat split. Qed.

Lemma floor_multiple_div (x : Q) (d : Z) :
  0 < d -> floor_multiple x d (Qfloor x / d * d).
Proof.
  intros Hd. set (n := Qfloor x).
  assert (Hn : (inject_Z n <= x)%Q) by apply Qfloor_le.
  assert (Hn' : (x < inject_Z (n + 1))%Q) by apply Qlt_floor.
  pose proof (Z.mul_div_le n d Hd) as Hlo.
  pose proof (Z.mul_succ_div_gt n d Hd) as Hhi.
  repeat split.
  - exists (n / d). reflexivity.
  - apply Qle_trans with (inject_Z n); [|exact Hn].
    rewrite <- Zle_Qle. lia.
  - apply Qlt_le_trans with (inject_Z (n + 1)); [exact Hn'|].
    rewrite <- Zle_Qle. lia.
Qed.

Lemma half_divisor_nonneg (v : Q) (d : Z) :
  (0 < v)%Q -> 0 < d -> (0 <= v + inject_Z d / 2)%Q.
Proof.
  intros Hv Hd.
  assert (H : (0 <= inject_Z d / 2)%Q).
  { apply Qle_shift_div_l; [reflexivity|]. rewrite Qmult_0_l.
    change 0%Q with (inject_Z 0). rewrite <- Zle_Qle. lia. }
  lra.
Qed.

Lemma make_divisible_unfold (v : Q) (d : Z) :
  (0 < v)%Q -> 0 < d ->
  _make_divisible v d None =
  spec_make_divisible v d (Qfloor (v + inject_Z d / 2) / d * d).
Proof.
  intros Hv Hd. unfold _make_divisible, spec_make_divisible.
  rewrite (py_int_floor _ (half_divisor_nonneg v d Hv Hd)). reflexivity.
Qed.

Lemma spec_make_divisible_bounds (v : Q) (d m : Z) :
  (0 < v)%Q -> 0 < d -> floor_multiple (v + inject_Z d / 2) d m ->
  0 < spec_make_divisible v d m /\
  (d | spec_make_divisible v d m) /\
  ((9 # 10) * v <= inject_Z (spec_make_divisible v d m))%Q.
Proof.
  intros Hv Hd (Hdiv & Hlo & Hhi).
  assert (Hmax : (d | Z.max d m)).
  { destruct (Z.max_spec d m) as [[_ ->] | [_ ->]]; [exact Hdiv | apply Z.divide_refl]. }
  assert (Hd2 : (0 <= inject_Z d / 2)%Q).
  { apply Qle_shift_div_l; [reflexivity|]. rewrite Qmult_0_l.
    change 0%Q with (inject_Z 0). rewrite <- Zle_Qle. lia. }
  unfold spec_make_divisible.
  destruct (Qlt_le_dec (inject_Z (Z.max d m)) ((9 # 10) * v)) as [Hlt | Hge].
  - repeat split.
    + lia.
    + apply Z.divide_add_r; [exact Hmax | apply Z.divide_refl].
    + apply Qle_trans with (inject_Z (m + d)).
      * lra.
      * rewrite <- Zle_Qle. lia.
  - repeat split.
    + lia.
    + exact Hmax.
    + exact Hge.
Qed.

(** In exact arithmetic, for every positive target [v] and divisor [d]
    in {4, 8}, with [min_value] left at its default, the value is a
    positive multiple of [d] that is at least [0.9 * v]; it is
    [max(d, m)], where [m] is the largest multiple of [d] not exceeding
    [v + d/2], with one more [d] added when that value is below [0.9 * v]. *)
Lemma make_divisible_rounds_exact (v : Q) (d : Z) :
  (0 < v)%Q -> d = 4 \/ d = 8 ->
  exists m : Z,
    floor_multiple (v + inject_Z d / 2) d m /\
    _make_divisible v d None = spec_make_divisible v d m /\
    0 < _make_divisible v d None /\
    (d | _make_divisible v d None) /\
    ((9 # 10) * v <= inject_Z (_make_divisible v d None))%Q.
Proof.
  intros Hv Hd.
  assert (Hpos : 0 < d) by (destruct Hd; subst; lia).
  exists (Qfloor (v + inject_Z d / 2) / d * d).
  pose proof (floor_multiple_div (v + inject_Z d / 2) d Hpos) as Hfm.
  rewrite (make_divisible_unfold v d Hv Hpos).
  split; [exact Hfm|]. split; [reflexivity|].
  apply spec_make_divisible_bounds; assumption.
Qed.

(** C1 (as amended).  For every positive integer target [v] below
    [2^52], which is what the builder passes and where the float
    arithmetic of the program introduces no error that matters, and
    divisor [d] in {4, 8}, with [min_value] left at its default, the
    channel rounder returns a positive multiple of [d] that is at least
    [0.9 * v]; it is [max(d, m)], where [m] is the largest multiple of [d]
    not exceeding [v + d/2], with one more [d] added when that value is
    below [0.9 * v]. *)
Theorem make_divisible_rounds_int (v d : Z) :
  0 < v < 2 ^ 52 -> d = 4 \/ d = 8 ->
  exists m : Z,
    floor_multiple (inject_Z v + inject_Z d / 2) d m /\
    _make_divisible (inject_Z v) d None = spec_make_divisible (inject_Z v) d m /\
    0 < _make_divisible (inject_Z v) d None /\
    (d | _make_divisible (inject_Z v) d None) /\
    9 * v <= 10 * _make_divisible (inject_Z v) d None.
Proof.
  intros [Hv _] Hd.
  assert (Hvq : (0 < inject_Z v)%Q)
    by (change 0%Q with (inject_Z 0); rewrite <- Zlt_Qlt; exact Hv).
  destruct (make_divisible_rounds_exact (inject_Z v) d Hvq Hd)
    as (m & Hfm & Hspec & Hpos & Hdiv & Hge).
  exists m. repeat split; try assumption.
  - destruct Hfm as (H & _ & _); exact H.
  - destruct Hfm as (_ & H & _); exact H.
  - destruct Hfm as (_ & _ & H); exact H.
  - rewrite Zle_Qle, !inject_Z_mult.
    change (inject_Z 9) with 9%Q. change (inject_Z 10) with 10%Q. lra.
Qed.

(** The rounder at [v = 17], [d = 8]. *)
Lemma make_divisible_rounds_int_17 :
  exists m : Z,
    floor_multiple (inject_Z 17 + inject_Z 8 / 2) 8 m /\
    _make_divisible (inject_Z 17) 8 None = spec_make_divisible (inject_Z 17) 8 m /\
    0 < _make_divisible (inject_Z 17) 8 None /\
    (8 | _make_divisible (inject_Z 17) 8 None) /\
    9 * 17 <= 10 * _make_divisible (inject_Z 17) 8 None.
Proof.
  apply (make_divisible_rounds_int 17 8); [lia | right; reflexivity].
Defined.

(** C1 (as stated) fails at [v = 17], [d = 8]: the multiple of 8 nearest
    to [17 + 8/2 = 21] is 24 and no other, so the stated formula gives 24,
    while the rounder returns 16. *)
Lemma make_divisible_not_nearest :
  nearest_multiple (17 + inject_Z 8 / 2) 8 24 /\
  (forall m : Z, nearest_multiple (17 + inject_Z 8 / 2) 8 m -> m = 24) /\
  spec_make_divisible 17 8 24 = 24 /\
  _make_divisible 17 8 None = 16.
Proof.
  assert (E : (17 + inject_Z 8 / 2 == 21)%Q) by reflexivity.
  split; [|split; [|split; reflexivity]].
  - split; [exists 3; reflexivity|].
    intros k. rewrite E.
    assert (E3 : (Qabs (21 - inject_Z 24) == 3)%Q) by reflexivity.
    rewrite E3.
    destruct (Z_le_gt_dec k 2) as [Hk | Hk].
    + apply Qle_trans with (21 - inject_Z (k * 8))%Q; [|apply Qle_Qabs].
      change (inject_Z 3 <= inject_Z 21 - inject_Z (k * 8))%Q.
      rewrite <- inject_Z_sub, <- Zle_Qle. lia.
    + rewrite <- Qabs_opp.
      apply Qle_trans with (- (21 - inject_Z (k * 8)))%Q; [|apply Qle_Qabs].
      change (inject_Z 3 <= - (inject_Z 21 - inject_Z (k * 8)))%Q.
      rewrite <- inject_Z_sub, <- inject_Z_opp, <- Zle_Qle. lia.
  - intros m [[q Hq] Hnear].
    specialize (Hnear 3). rewrite E in Hnear.
    assert (E3 : (Qabs (21 - inject_Z (3 * 8)) == 3)%Q) by reflexivity.
    rewrite E3 in Hnear.
    apply Qabs_Qle_condition in Hnear. destruct Hnear as [Hlo Hhi].
    change (inject_Z (- 3) <= inject_Z 21 - inject_Z m)%Q in Hlo.
    change (inject_Z 21 - inject_Z m <= inject_Z 3)%Q in Hhi.
    rewrite <- inject_Z_sub, <- Zle_Qle in Hlo, Hhi. lia.
Qed.

(** ** The error monad *)

Lemma bind_Ok {A B : Type} (m : result A) (k : A -> result B) (b : B) :
  bind m k = Ok b -> exists a, m = Ok a /\ k a = Ok b.
Proof.
  destruct m as [a | e]; simpl; intros H; [exists a; auto | discriminate].
Qed.

(** Splits hypotheses of the shape [bind m k = Ok b]. *)
Ltac bind_inv :=
  repeat match goal with
  | H : bind _ _ = Ok _ |- _ =>
      let a := fresh "a" in
      let Ha := fresh "Ha" in
      apply bind_Ok in H; destruct H as (a & Ha & H); cbv beta in H
  | H : (let '(_, _) := ?p in _) = Ok _ |- _ => destruct p
  | H : match ?p with pair _ _ => _ end = Ok _ |- _ => destruct p
  end.

(** ** The inverted residual block *)

Lemma block_init_stride (inp oup stride : Z) (t : Q) (q l f : bool)
    (b : InvertedResidual.t) :
  InvertedResidual.__init__ inp oup stride t q l f = Ok b ->
  stride = 1 \/ stride = 2.
Proof.
  unfold InvertedResidual.__init__.
  destruct (stride =? 1) eqn:E1; [intros _; left; lia|].
  destruct (stride =? 2) eqn:E2; [intros _; right; lia|].
  simpl. discriminate.
Qed.


Lemma block_init_fields (inp oup stride : Z) (t : Q) (q l f : bool)
    (b : InvertedResidual.t) :
  InvertedResidual.__init__ inp oup stride t q l f = Ok b ->
  InvertedResidual.identity b = (stride =? 1) && (inp =? oup) /\
  InvertedResidual.expand_ratio b = t.
Proof.
  unfold InvertedResidual.__init__.
  destruct (negb ((stride =? 1) || (stride =? 2))); [discriminate|].
  destruct (Qeq_bool t 1); intros H; injection H as <-; split; reflexivity.
Qed.

(** On a constructed block the stage pipeline ends in a tensor. *)
Lemma block_stages_tensor {RT : TensorRuntime} (inp oup stride : Z) (t : Q)
    (q l f : bool) (b : InvertedResidual.t) (p : path) (x : Tensor) (v : Value) :
  InvertedResidual.__init__ inp oup stride t q l f = Ok b ->
  InvertedResidual.stages p b x = Ok v ->
  exists out, v = V_Tensor out.
Proof.
  unfold InvertedResidual.__init__.
  destruct (negb ((stride =? 1) || (stride =? 2))); [discriminate|].
  unfold InvertedResidual.stages.
  destruct (Qeq_bool t 1) eqn:Et; intros H; injection H as <-; simpl;
    rewrite Et; intros H; bind_inv.
  - unfold Sequential_index_call in H; simpl in H.
    bind_inv. injection H as <-. eexists; reflexivity.
  - injection H as <-. eexists; reflexivity.
Qed.

(** X3.  The identity flag of a block fixed at construction equals
    [stride == 1 and inp == oup]; a forward call raises what its stage
    calls raise, and otherwise returns [x + out] when the flag is set and
    [out] alone when it is not, [out] being the tensor the stage calls
    produced. *)
Theorem block_identity_shortcut (inp oup stride : Z) (t : Q) (q l f : bool)
    (b : InvertedResidual.t) :
  InvertedResidual.__init__ inp oup stride t q l f = Ok b ->
  InvertedResidual.identity b = (stride =? 1) && (inp =? oup) /\
  forall (RT : TensorRuntime) (p : path) (x : Tensor),
    (forall e, InvertedResidual.stages p b x = Raise e ->
               InvertedResidual.forward p b x = Raise e) /\
    (forall v, InvertedResidual.stages p b x = Ok v ->
       exists out, v = V_Tensor out /\
         InvertedResidual.forward p b x =
         if (stride =? 1) && (inp =? oup)
         then y <- tensor_add x out ;; Ok (V_Tensor y)
         else Ok (V_Tensor out)).
Proof.
  intros Hb. destruct (block_init_fields _ _ _ _ _ _ _ _ Hb) as [Hid _].
  split; [exact Hid|].
  intros RT p x. split.
  - intros e He. unfold InvertedResidual.forward. rewrite He. reflexivity.
  - intros v Hv.
    destruct (block_stages_tensor _ _ _ _ _ _ _ _ p x v Hb Hv) as [out ->].
    exists out. split; [reflexivity|].
    unfold InvertedResidual.forward. rewrite Hv, Hid. simpl.
    destruct ((stride =? 1) && (inp =? oup)); reflexivity.
Qed.

(** The block with [stride = 1], [inp = oup = 16], [expand_ratio = 6] has
    the shortcut. *)
Lemma block_identity_shortcut_16 :
  exists b, InvertedResidual.__init__ 16 16 1 6 false false false = Ok b /\
            InvertedResidual.identity b = true.
Proof.
  eexists. split; [reflexivity|].
  exact (proj1 (block_identity_shortcut 16 16 1 6 false false false _ eq_refl)).
Defined.

(** C4.  The block with [stride = 1], [inp = oup = 16] and
    [expand_ratio = 6] has the shortcut and eight members, the last of
    them [BatchNorm2d(16)]; its forward call on [x] returns [x + out]
    where [out] went through the members 0 to 6 only: the batch
    normalization that ends the pipeline is never called.  The block with
    [expand_ratio = 1] calls all five of its members, the final batch
    normalization included. *)
Theorem block_forward_skips_last_bn :
  exists b b1,
    InvertedResidual.__init__ 16 16 1 6 false false false = Ok b /\
    InvertedResidual.identity b = true /\
    length (InvertedResidual.conv b) = 8%nat /\
    nth_error (InvertedResidual.conv b) 7 = Some (L_BatchNorm2d 16) /\
    InvertedResidual.forward (RT := TraceRuntime.runtime) [1%nat] b [[0%nat]] =
      Ok (@V_Tensor TraceRuntime.runtime
            ([[0]] ++ [[0]; [1; 0]; [1; 1]; [1; 2]; [1; 3]; [1; 4]; [1; 5]; [1; 6]])%nat) /\
    InvertedResidual.__init__ 16 16 1 1 false false false = Ok b1 /\
    length (InvertedResidual.conv b1) = 5%nat /\
    nth_error (InvertedResidual.conv b1) 4 = Some (L_BatchNorm2d 16) /\
    InvertedResidual.forward (RT := TraceRuntime.runtime) [1%nat] b1 [[0%nat]] =
      Ok (@V_Tensor TraceRuntime.runtime
            ([[0]] ++ [[0]; [1; 0]; [1; 1]; [1; 2]; [1; 3]; [1; 4]])%nat).
Proof.
  eexists. eexists.
  split; [reflexivity|].
  repeat split.
Qed.

(** X4.  In a block built with [expand_ratio != 1] the eighth member of
    [conv], the batch normalization after the projection, is dead: the
    forward call is the one of the block without it. *)
Theorem expanded_block_last_norm_unused (RT : TensorRuntime)
    (inp oup stride : Z) (t : Q) (q l f : bool) (b : InvertedResidual.t)
    (p : path) (x : Tensor) :
  InvertedResidual.__init__ inp oup stride t q l f = Ok b ->
  ~ (t == 1)%Q ->
  length (InvertedResidual.conv b) = 8%nat /\
  nth_error (InvertedResidual.conv b) 7 = Some (L_BatchNorm2d oup) /\
  InvertedResidual.forward p b x =
  InvertedResidual.forward p
    {| InvertedResidual.identity := InvertedResidual.identity b;
       InvertedResidual.expand_ratio := InvertedResidual.expand_ratio b;
       InvertedResidual.conv := firstn 7 (InvertedResidual.conv b) |} x.
Proof.
  unfold InvertedResidual.__init__.
  destruct (negb ((stride =? 1) || (stride =? 2))); [discriminate|].
  destruct (Qeq_bool t 1) eqn:Et; intros H Hne; injection H as <-.
  - exfalso. apply Hne. apply Qeq_bool_iff. exact Et.
  - repeat split.
Qed.

(** The second block of the network, [16 -> 24] with stride 2 and
    [expand_ratio = 6], on the runtime that records calls. *)
Lemma expanded_block_last_norm_unused_24 :
  exists b,
    InvertedResidual.__init__ 16 24 2 6 false false false = Ok b /\
    nth_error (InvertedResidual.conv b) 7 = Some (L_BatchNorm2d 24).
Proof.
  eexists. split; [reflexivity|].
  refine (proj1 (proj2 (expanded_block_last_norm_unused TraceRuntime.runtime
                          16 24 2 6 false false false _ [1%nat] [] eq_refl _))).
  intros E; discriminate E.
Defined.



(** ** The loops of the network builder *)

Lemma construct_all_app (q l f : bool) (cs cs' : list block_call) :
  construct_all q l f (cs ++ cs') =
  (bs <- construct_all q l f cs ;;
   bs' <- construct_all q l f cs' ;;
   Ok (bs ++ bs')).
Proof.
  induction cs as [| [[[inp oup] stride] t] cs IH]; simpl.
  - destruct (construct_all q l f cs'); reflexivity.
  - destruct (InvertedResidual.__init__ inp oup stride (inject_Z t) q l f); simpl;
      [|reflexivity].
    rewrite IH. destruct (construct_all q l f cs); simpl; [|reflexivity].
    destruct (construct_all q l f cs'); reflexivity.
Qed.

Lemma construct_all_length (q l f : bool) (cs : list block_call)
    (bs : list InvertedResidual.t) :
  construct_all q l f cs = Ok bs -> length bs = length cs.
Proof.
  revert bs. induction cs as [| [[[inp oup] stride] t] cs IH]; simpl; intros bs H.
  - injection H as <-. reflexivity.
  - bind_inv. injection H as <-. simpl. f_equal. apply IH. assumption.
Qed.


(** The iterations [i = a, a+1, ...] with [a >= 1] of the inner loop. *)
Lemma repeat_loop_rest (t s oc : Z) (q l f : bool) (k a : nat) (layers : list Module_) :
  (1 <= a)%nat ->
  for_loop (map Z.of_nat (seq a k)) (MobileNetV2.repeat_body t s oc q l f) (layers, oc) =
  (bs <- construct_all q l f (repeat (oc, oc, 1, t) k) ;;
   Ok (layers ++ map M_InvertedResidual bs, oc)).
Proof.
  revert a layers. induction k as [| k IH]; intros a layers Ha; simpl.
  - rewrite app_nil_r. reflexivity.
  - replace (Z.of_nat a =? 0) with false by (symmetry; apply Z.eqb_neq; lia).
    destruct (InvertedResidual.__init__ oc oc 1 (inject_Z t) q l f) as [b | e]; simpl;
      [|reflexivity].
    rewrite IH by lia.
    destruct (construct_all q l f (repeat (oc, oc, 1, t) k)); simpl; [|reflexivity].
    rewrite <- app_assoc. reflexivity.
Qed.

Lemma row_body_calls (wm : Q) (q l f : bool) (row : Z * Z * Z * Z)
    (layers : list Module_) (ch : Z) :
  MobileNetV2.row_body wm q l f row (layers, ch) =
  (bs <- construct_all q l f (fst (row_calls wm row ch)) ;;
   Ok (layers ++ map M_InvertedResidual bs, snd (row_calls wm row ch))).
Proof.
  destruct row as [[[t c] n] s].
  unfold MobileNetV2.row_body, row_calls, range.
  destruct (Z.to_nat n) as [| k]; simpl.
  - rewrite app_nil_r. reflexivity.
  - set (oc := _make_divisible _ _ _).
    destruct (InvertedResidual.__init__ ch oc s (inject_Z t) q l f) as [b | e]; simpl;
      [|reflexivity].
    rewrite repeat_loop_rest by lia.
    destruct (construct_all q l f (repeat (oc, oc, 1, t) k)); simpl; [|reflexivity].
    rewrite <- app_assoc. reflexivity.
Qed.

Lemma table_loop_calls (wm : Q) (q l f : bool) (table : list (Z * Z * Z * Z))
    (layers : list Module_) (ch : Z) :
  for_loop table (MobileNetV2.row_body wm q l f) (layers, ch) =
  (bs <- construct_all q l f (fst (table_calls wm table ch)) ;;
   Ok (layers ++ map M_InvertedResidual bs, snd (table_calls wm table ch))).
Proof.
  revert layers ch. induction table as [| row rows IH]; intros layers ch; simpl.
  - rewrite app_nil_r. reflexivity.
  - rewrite row_body_calls.
    destruct (row_calls wm row ch) as [cs ch1] eqn:Erow; simpl.
    destruct (table_calls wm rows ch1) as [cs' ch2] eqn:Etab; simpl.
    rewrite construct_all_app.
    destruct (construct_all q l f cs) as [bs | e]; simpl; [|reflexivity].
    rewrite IH, Etab; simpl.
    destruct (construct_all q l f cs') as [bs' | e]; simpl; [|reflexivity].
    rewrite map_app, app_assoc. reflexivity.
Qed.



Lemma table_calls_app (wm : Q) (t1 t2 : list (Z * Z * Z * Z)) (ch : Z) :
  table_calls wm (t1 ++ t2) ch =
  (fst (table_calls wm t1 ch) ++ fst (table_calls wm t2 (snd (table_calls wm t1 ch))),
   snd (table_calls wm t2 (snd (table_calls wm t1 ch)))).
Proof.
  revert ch. induction t1 as [| row rows IH]; intros ch; simpl.
  - destruct (table_calls wm t2 ch); reflexivity.
  - destruct (row_calls wm row ch) as [cs ch1]. rewrite IH.
    destruct (table_calls wm rows ch1) as [cs' ch2]; simpl.
    rewrite app_assoc. reflexivity.
Qed.

Lemma table_calls_cons (wm : Q) (row : Z * Z * Z * Z) (rows : list (Z * Z * Z * Z))
    (ch : Z) :
  table_calls wm (row :: rows) ch =
  (fst (row_calls wm row ch) ++ fst (table_calls wm rows (snd (row_calls wm row ch))),
   snd (table_calls wm rows (snd (row_calls wm row ch)))).
Proof.
  simpl. destruct (row_calls wm row ch) as [cs ch1]; simpl.
  destruct (table_calls wm rows ch1); reflexivity.
Qed.

(** The calls of a table around one of its rows. *)
Lemma table_calls_row (wm : Q) (pre post : list (Z * Z * Z * Z)) (row : Z * Z * Z * Z)
    (ch0 : Z) :
  let ch := snd (table_calls wm pre ch0) in
  table_calls wm (pre ++ row :: post) ch0 =
  (fst (table_calls wm pre ch0) ++ fst (row_calls wm row ch)
     ++ fst (table_calls wm post (snd (row_calls wm row ch))),
   snd (table_calls wm post (snd (row_calls wm row ch)))).
Proof.
  intros ch. rewrite table_calls_app, table_calls_cons. reflexivity.
Qed.

(** Rows that ask for no block make no call and leave the running
    channel count as it is. *)
Lemma table_calls_no_block (wm : Q) (table : list (Z * Z * Z * Z)) (ch : Z) :
  Forall (fun row : Z * Z * Z * Z => let '(_, _, n, _) := row in n <= 0) table ->
  table_calls wm table ch = ([], ch).
Proof.
  induction 1 as [| [[[t c] n] s] rows Hn _ IH]; simpl; [reflexivity|].
  replace (Z.to_nat n) with O by lia. rewrite IH. reflexivity.
Qed.

(** ** The network builder *)

Lemma build_calls (wm : Q) (table : list (Z * Z * Z * Z)) (nc : Z) (q l f : bool)
    (index : list Z) :
  MobileNetV2.build wm table nc q l f index =
  (let ch0 := _make_divisible (32 * wm) (MobileNetV2.divisor_of wm) None in
   bs <- construct_all q l f (fst (table_calls wm table ch0)) ;;
   Ok {| MobileNetV2.cfgs := table;
         MobileNetV2.features :=
           M_Sequential (conv_3x3_bn 3 ch0 2 q l f) :: map M_InvertedResidual bs;
         MobileNetV2.conv :=
           conv_1x1_bn (snd (table_calls wm table ch0)) (MobileNetV2.head_channel wm) l q f;
         MobileNetV2.avgpool := (1, 1);
         MobileNetV2.classifier :=
           {| in_features := MobileNetV2.head_channel wm; out_features := nc |} |}).
Proof.
  unfold MobileNetV2.build. rewrite table_loop_calls.
  cbv zeta. destruct (construct_all q l f _); reflexivity.
Qed.

Lemma build_inv (wm : Q) (table : list (Z * Z * Z * Z)) (nc : Z) (q l f : bool)
    (index : list Z) (net : MobileNetV2.t) :
  MobileNetV2.build wm table nc q l f index = Ok net ->
  exists bs,
    construct_all q l f
      (fst (table_calls wm table
              (_make_divisible (32 * wm) (MobileNetV2.divisor_of wm) None))) = Ok bs /\
    net =
    {| MobileNetV2.cfgs := table;
       MobileNetV2.features :=
         M_Sequential
           (conv_3x3_bn 3 (_make_divisible (32 * wm) (MobileNetV2.divisor_of wm) None)
              2 q l f)
         :: map M_InvertedResidual bs;
       MobileNetV2.conv :=
         conv_1x1_bn
           (snd (table_calls wm table
                   (_make_divisible (32 * wm) (MobileNetV2.divisor_of wm) None)))
           (MobileNetV2.head_channel wm) l q f;
       MobileNetV2.avgpool := (1, 1);
       MobileNetV2.classifier :=
         {| in_features := MobileNetV2.head_channel wm; out_features := nc |} |}.
Proof.
  rewrite build_calls. cbv zeta. intros H.
  apply bind_Ok in H. destruct H as (bs & Hbs & H).
  injection H as <-. exists bs. split; [exact Hbs | reflexivity].
Qed.






(** ** The head *)

(** C8.  In a network the constructor returned, the head projection
    stage is a 1x1 quantization-aware convolution from the 320 channels
    of the last block, then batch normalization, then ReLU6.  Its output
    channel count is the one the statement gives at the width multiplier
    of the constructor, the literal 1: the rounded value of
    [1280 * width_mult], which is 1280; the expression of the source,
    which rounds only when [width_mult > 1], gives the same there.  The
    classifier takes that many features. *)
Theorem head_projection_constructed (nc : Z) (q l f : bool) (index : list Z)
    (net : MobileNetV2.t) :
  MobileNetV2.__init__ nc q l f index = Ok net ->
  let width_mult := 1%Q in
  exists oc : Z,
    MobileNetV2.conv net =
      [ L_LQ_Conv2d {| lq_conv := {| in_channels := 320; out_channels := oc;
                                     kernel_size := 1; stride := 1; padding := 0;
                                     groups := 1; bias := false |};
                       is_qt := q; lq := l; fwlq := f |};
        L_BatchNorm2d oc;
        L_ReLU6 true ] /\
    count_LQ (MobileNetV2.conv net) = 1%nat /\
    oc = prose_head_channel width_mult /\
    oc = MobileNetV2.head_channel width_mult /\
    oc = 1280 /\
    in_features (MobileNetV2.classifier net) = oc.
Proof.
  intros Hnet width_mult.
  destruct (build_inv 1 MobileNetV2.the_cfgs nc q l f index net Hnet) as (bs & _ & ->).
  exists 1280. repeat split.
Qed.

(** The head of the network for ten classes with [is_qt] set. *)
Lemma head_projection_constructed_10 :
  exists (net : MobileNetV2.t) (oc : Z),
    MobileNetV2.__init__ 10 true false false [] = Ok net /\
    MobileNetV2.conv net =
      [ L_LQ_Conv2d {| lq_conv := {| in_channels := 320; out_channels := oc;
                                     kernel_size := 1; stride := 1; padding := 0;
                                     groups := 1; bias := false |};
                       is_qt := true; lq := false; fwlq := false |};
        L_BatchNorm2d oc;
        L_ReLU6 true ] /\
    oc = prose_head_channel 1 /\
    oc = 1280.
Proof.
  eexists.
  refine ((fun H =>
             match H with
             | ex_intro _ oc (conj Hconv (conj _ (conj Hprose (conj _ (conj Hoc _))))) =>
                 ex_intro _ oc (conj eq_refl (conj Hconv (conj Hprose Hoc)))
             end)
          (head_projection_constructed 10 true false false [] _ eq_refl)).
Defined.

(** Away from the width multiplier of the constructor the expression of
    the source and the rule of the description part: at 2 the source
    rounds [1280 * 2] to 2560 where the description has 1280, at 1/2 the
    source has 1280 where the description rounds to 640. *)
Remark head_channel_rules_part :
  MobileNetV2.head_channel 2 = 2560 /\
  prose_head_channel 2 = 1280 /\
  MobileNetV2.head_channel (1 # 2) = 1280 /\
  prose_head_channel (1 # 2) = 640.
Proof.
  repeat split; reflexivity.
Qed.

(** ** The unused argument *)

(** C10.  The [index] argument has no effect: two constructions that
    differ only in [index] give the same result, through
    [mobilenetv2_cifar] as well, and so the same forward behaviour. *)
Theorem index_unused (nc : Z) (q l f : bool) (i1 i2 : list Z) :
  MobileNetV2.__init__ nc q l f i1 = MobileNetV2.__init__ nc q l f i2 /\
  mobilenetv2_cifar nc q l i1 f = mobilenetv2_cifar nc q l i2 f /\
  forall (RT : TensorRuntime) (x : Tensor),
    (net <- mobilenetv2_cifar nc q l i1 f ;; MobileNetV2.forward net x) =
    (net <- mobilenetv2_cifar nc q l i2 f ;; MobileNetV2.forward net x).
Proof.
  unfold mobilenetv2_cifar, MobileNetV2.__init__, MobileNetV2.build.
  repeat split.
Qed.

(** ** The forward pass of the network *)

(** C3.  For every network, constructed with whatever flags, and every
    input, the top-level forward call returns a pair exactly when its
    tensor pipeline returns and [torch.Tensor([0]).cuda()] does; the first
    component is the output of the pipeline and the second is that
    one-element zero tensor, which depends on neither the input nor the
    network. *)
Theorem forward_aux_constant (RT : TensorRuntime) (net : MobileNetV2.t)
    (x lg aux : Tensor) :
  MobileNetV2.forward net x = Ok (lg, aux) <->
  MobileNetV2.logits net x = Ok lg /\ cuda (tensor_of_list [0]) = Ok aux.
Proof.
  unfold MobileNetV2.forward. split.
  - intros H. bind_inv. injection H as <- <-. split; assumption.
  - intros [-> ->]. reflexivity.
Qed.

(** C9.  The network constructed with [num_classes = 1000] and the three
    flags off maps an input of shape [1, 3, 224, 224] to logits of shape
    [1, 1000], the first component of the result of [forward]. *)
Theorem full_network_shape :
  exists net aux,
    MobileNetV2.__init__ 1000 false false false [] = Ok net /\
    MobileNetV2.forward (RT := ShapeRuntime.runtime) net [1; 3; 224; 224]
    = Ok ([1; 1000], aux).
Proof.
  eexists. eexists. split; [reflexivity|]. vm_compute. reflexivity.
Qed.

(** ** The auxiliary signals of the primitives are discarded *)

Section AuxDiscarded.

Context (RT : TensorRuntime).
Variable g : path -> LQ_Conv2d -> Tensor -> Tensor -> Tensor.

Local Abbreviation RT' := (with_aux RT g).

Lemma same_result_bind {A A' B B' : Type} (R : A -> A' -> Prop) (S : B -> B' -> Prop)
    (m : result A) (m' : result A') (k : A -> result B) (k' : A' -> result B') :
  same_result R m m' ->
  (forall a a', R a a' -> same_result S (k a) (k' a')) ->
  same_result S (bind m k) (bind m' k').
Proof.
  destruct m, m'; simpl; intros H Hk; try contradiction; auto.
Qed.

Lemma same_result_eq {A : Type} (m m' : result A) :
  same_result eq m m' -> m = m'.
Proof.
  destruct m, m'; simpl; intros H; try contradiction; congruence.
Qed.

Lemma same_result_refl {A : Type} (R : A -> A -> Prop) (m : result A) :
  (forall a, R a a) -> same_result R m m.
Proof.
  destruct m; simpl; auto.
Qed.

Lemma Layer_call_same (p : path) (l : Layer) (x : Tensor) :
  same_result (same_tensor (g := g))
    (Layer_call (RT := RT) p l x) (Layer_call (RT := RT') p l x).
Proof.
  destruct l; simpl.
  - destruct (conv2d p c x); simpl; reflexivity.
  - destruct (lq_conv2d p c x) as [[y a] | e]; simpl; reflexivity.
  - destruct (batch_norm2d p num_features x); simpl; reflexivity.
  - destruct (relu6 p x); simpl; reflexivity.
Qed.

Lemma Layer_call_value_same (p : path) (l : Layer) (v : @Value RT) (v' : @Value RT') :
  same_tensor v v' ->
  same_result (same_tensor (g := g))
    (Layer_call_value p l v) (Layer_call_value p l v').
Proof.
  destruct v, v'; simpl; intros H; try contradiction.
  - subst. apply Layer_call_same.
  - reflexivity.
Qed.

Lemma Sequential_forward_from_same (p : path) (s : list Layer) :
  forall (lo : nat) (v : @Value RT) (v' : @Value RT'),
    same_tensor v v' ->
    same_result (same_tensor (g := g))
      (Sequential_forward_from p lo s v) (Sequential_forward_from p lo s v').
Proof.
  induction s as [| l s IH]; intros lo v v' H; simpl.
  - exact H.
  - eapply same_result_bind.
    + apply Layer_call_value_same; exact H.
    + intros a a' Ha. apply IH; exact Ha.
Qed.

Lemma Sequential_index_call_same (p : path) (s : Sequential) (i : nat)
    (v : @Value RT) (v' : @Value RT') :
  same_tensor v v' ->
  same_result (same_tensor (g := g))
    (Sequential_index_call p s i v) (Sequential_index_call p s i v').
Proof.
  intros H. unfold Sequential_index_call.
  destruct (Sequential_get s i); simpl; [|reflexivity].
  apply Layer_call_value_same; exact H.
Qed.

Lemma unpack2_same (v : @Value RT) (v' : @Value RT') :
  same_tensor v v' ->
  same_result (fun r r' => fst r = fst r') (unpack2 v) (unpack2 v').
Proof.
  destruct v, v'; simpl; intros H; try contradiction; subst.
  - apply (same_result_refl (fun r r' : Tensor * Tensor => fst r = fst r')
             (tensor_unpack2 t0)).
    reflexivity.
  - reflexivity.
Qed.

Lemma as_tensor_same (v : @Value RT) (v' : @Value RT') :
  same_tensor v v' -> same_result eq (as_tensor v) (as_tensor v').
Proof.
  destruct v, v'; simpl; intros H; try contradiction; auto.
Qed.

(** The step [out, _ = self.conv[i](v)] followed by a continuation that
    uses [out] only. *)
Lemma call_unpack_same {B B' : Type} (S : B -> B' -> Prop) (p : path)
    (s : Sequential) (i : nat) (v : @Value RT) (v' : @Value RT')
    (k : Tensor -> result B) (k' : Tensor -> result B') :
  same_tensor v v' ->
  (forall out, same_result S (k out) (k' out)) ->
  same_result S
    (r <- Sequential_index_call p s i v ;; '(out, _) <- unpack2 r ;; k out)
    (r <- Sequential_index_call p s i v' ;; '(out, _) <- unpack2 r ;; k' out).
Proof.
  intros H Hk.
  eapply same_result_bind; [apply Sequential_index_call_same; exact H|].
  intros r r' Hr.
  eapply same_result_bind; [apply unpack2_same; exact Hr|].
  intros [out a] [out' a']; simpl; intros <-. apply Hk.
Qed.

Lemma stages_same (p : path) (b : InvertedResidual.t) (x : Tensor) :
  same_result (same_tensor (g := g))
    (InvertedResidual.stages (RT := RT) p b x)
    (InvertedResidual.stages (RT := RT') p b x).
Proof.
  unfold InvertedResidual.stages.
  destruct (Qeq_bool (InvertedResidual.expand_ratio b) 1).
  - apply call_unpack_same; [reflexivity|]. intros out.
    eapply same_result_bind;
      [apply Sequential_forward_from_same; reflexivity|].
    intros v v' Hv.
    apply call_unpack_same; [exact Hv|]. intros out'.
    apply Sequential_index_call_same. reflexivity.
  - apply call_unpack_same; [reflexivity|]. intros out.
    eapply same_result_bind;
      [apply Sequential_forward_from_same; reflexivity|].
    intros v v' Hv.
    apply call_unpack_same; [exact Hv|]. intros out'.
    eapply same_result_bind;
      [apply Sequential_forward_from_same; reflexivity|].
    intros w w' Hw.
    apply call_unpack_same; [exact Hw|]. intros out''.
    reflexivity.
Qed.

Lemma block_forward_same (p : path) (b : InvertedResidual.t) (x : Tensor) :
  same_result (same_tensor (g := g))
    (InvertedResidual.forward (RT := RT) p b x)
    (InvertedResidual.forward (RT := RT') p b x).
Proof.
  unfold InvertedResidual.forward.
  eapply same_result_bind; [apply stages_same|].
  intros v v' Hv.
  destruct (InvertedResidual.identity b); [|exact Hv].
  eapply same_result_bind; [apply as_tensor_same; exact Hv|].
  intros o o' <-.
  eapply same_result_bind with (R := eq);
    [apply (same_result_refl eq (tensor_add x o)); reflexivity|].
  intros y y' <-. reflexivity.
Qed.

Lemma Module_call_same (p : path) (m : Module_) (v : @Value RT) (v' : @Value RT') :
  same_tensor v v' ->
  same_result (same_tensor (g := g))
    (MobileNetV2.Module_call p m v) (MobileNetV2.Module_call p m v').
Proof.
  intros H. destruct m; simpl.
  - apply Sequential_forward_from_same; exact H.
  - eapply same_result_bind; [apply as_tensor_same; exact H|].
    intros x x' <-. apply block_forward_same.
Qed.

Lemma features_forward_from_same (p : path) (ms : list Module_) :
  forall (i : nat) (v : @Value RT) (v' : @Value RT'),
    same_tensor v v' ->
    same_result (same_tensor (g := g))
      (MobileNetV2.features_forward_from p i ms v)
      (MobileNetV2.features_forward_from p i ms v').
Proof.
  induction ms as [| m ms IH]; intros i v v' H; simpl.
  - exact H.
  - eapply same_result_bind; [apply Module_call_same; exact H|].
    intros a a' Ha. apply IH; exact Ha.
Qed.

Lemma logits_same (net : MobileNetV2.t) (x : Tensor) :
  MobileNetV2.logits (RT := RT') net x = MobileNetV2.logits (RT := RT) net x.
Proof.
  symmetry. apply same_result_eq. unfold MobileNetV2.logits.
  eapply same_result_bind; [apply features_forward_from_same; reflexivity|].
  intros v v' Hv.
  apply call_unpack_same; [exact Hv|]. intros out.
  eapply same_result_bind; [apply Sequential_forward_from_same; reflexivity|].
  intros w w' Hw.
  eapply same_result_bind; [apply as_tensor_same; exact Hw|].
  intros y y' <-.
  apply same_result_refl. reflexivity.
Qed.

(** X1.  Whatever auxiliary signals the quantization-aware convolutions
    report, the result of the network's forward call is the same: the
    signals are dropped at every [out, _ = ...]. *)
Theorem forward_ignores_primitive_aux (net : MobileNetV2.t) (x : Tensor) :
  MobileNetV2.forward (RT := RT') net x = MobileNetV2.forward (RT := RT) net x.
Proof.
  unfold MobileNetV2.forward. rewrite logits_same. reflexivity.
Qed.

End AuxDiscarded.

(** ** Shapes through the network *)

Lemma conv_extent_pos (h k s p : Z) :
  k <= h + 2 * p -> 0 < s -> 1 <= ShapeRuntime.conv_extent h k s p.
Proof.
  intros Hk Hs. unfold ShapeRuntime.conv_extent.
  assert (0 <= (h + 2 * p - k) / s) by (apply Z.div_pos; lia). lia.
Qed.

Lemma conv2d_shape_ok (c : Conv2d) (n h w : Z) :
  0 < groups c -> 0 < stride c ->
  in_channels c mod groups c = 0 -> out_channels c mod groups c = 0 ->
  kernel_size c <= h + 2 * padding c -> kernel_size c <= w + 2 * padding c ->
  ShapeRuntime.conv2d_shape c [n; in_channels c; h; w] =
  Ok [n; out_channels c;
      ShapeRuntime.conv_extent h (kernel_size c) (stride c) (padding c);
      ShapeRuntime.conv_extent w (kernel_size c) (stride c) (padding c)].
Proof.
  intros Hg Hs Hi Ho Hh Hw. unfold ShapeRuntime.conv2d_shape.
  rewrite Z.eqb_refl.
  replace (0 <? groups c) with true by (symmetry; apply Z.ltb_lt; lia).
  replace (0 <? stride c) with true by (symmetry; apply Z.ltb_lt; lia).
  rewrite Hi, Ho.
  replace (kernel_size c <=? h + 2 * padding c) with true by (symmetry; apply Z.leb_le; lia).
  replace (kernel_size c <=? w + 2 * padding c) with true by (symmetry; apply Z.leb_le; lia).
  reflexivity.
Qed.

Lemma conv_extent_1x1 (h : Z) : ShapeRuntime.conv_extent h 1 1 0 = h.
Proof.
  unfold ShapeRuntime.conv_extent. rewrite Z.div_1_r. lia.
Qed.

Lemma conv_extent_3x3_same (h : Z) : ShapeRuntime.conv_extent h 3 1 1 = h.
Proof.
  unfold ShapeRuntime.conv_extent. rewrite Z.div_1_r. lia.
Qed.

Lemma conv_extent_3x3_ceil (h s : Z) :
  0 < s -> ShapeRuntime.conv_extent h 3 s 1 = (h + s - 1) / s.
Proof.
  intros Hs. unfold ShapeRuntime.conv_extent.
  replace (h + s - 1) with (h + 2 * 1 - 3 + 1 * s) by lia.
  rewrite Z.div_add by lia. reflexivity.
Qed.

Lemma conv_extent_3x3_le (h s : Z) :
  0 < s -> 1 <= h -> ShapeRuntime.conv_extent h 3 s 1 <= h.
Proof.
  intros Hs Hh. rewrite conv_extent_3x3_ceil by exact Hs.
  assert (H : (h + s - 1) / s < h + 1); [|lia].
  apply Z.div_lt_upper_bound; [exact Hs|]. nia.
Qed.

(** A tensor with more than one value per channel keeps more than one
    when its spatial extents grow. *)
Lemma values_per_channel (n a b a' b' : Z) :
  1 <= n -> 1 <= a <= a' -> 1 <= b <= b' -> 1 < n * a * b -> n * a' * b' <> 1.
Proof.
  intros Hn Ha Hb H.
  assert (Hle : n * a * b <= n * a' * b').
  { apply Z.mul_le_mono_nonneg; [nia | | lia | lia].
    apply Z.mul_le_mono_nonneg_l; lia. }
  lia.
Qed.

Lemma construct_all_strides (q l f : bool) (cs : list block_call)
    (bs : list InvertedResidual.t) :
  construct_all q l f cs = Ok bs -> forallb call_stride_ok cs = true.
Proof.
  revert bs. induction cs as [| [[[inp oup] stride] t] cs IH]; simpl; intros bs H.
  - reflexivity.
  - bind_inv. injection H as <-.
    match goal with
    | Hb : InvertedResidual.__init__ _ _ _ _ _ _ _ = Ok _ |- _ =>
        pose proof (block_init_stride _ _ _ _ _ _ _ _ Hb) as Hs
    end.
    apply andb_true_iff. split.
    + apply orb_true_iff. destruct Hs as [-> | ->]; [left | right]; reflexivity.
    + eapply IH; eassumption.
Qed.

Lemma extent_after_cons (call : block_call) (calls : list block_call) (h : Z) :
  extent_after (call :: calls) h =
  extent_after calls (let '(_, _, stride, _) := call in ShapeRuntime.conv_extent h 3 stride 1).
Proof.
  reflexivity.
Qed.

(** The depthwise convolutions never enlarge a spatial extent and never
    empty it. *)
Lemma extent_after_bounds (calls : list block_call) :
  forallb call_stride_ok calls = true ->
  forall h : Z, 1 <= h -> 1 <= extent_after calls h <= h.
Proof.
  induction calls as [| [[[inp oup] stride] t] calls IH]; intros Hs h Hh.
  - unfold extent_after. simpl. lia.
  - simpl in Hs. apply andb_true_iff in Hs. destruct Hs as [Hs Hrest].
    assert (Hpos : 0 < stride).
    { apply orb_true_iff in Hs. destruct Hs as [E | E]; apply Z.eqb_eq in E; lia. }
    rewrite extent_after_cons.
    assert (H1 : 1 <= ShapeRuntime.conv_extent h 3 stride 1)
      by (apply conv_extent_pos; lia).
    pose proof (conv_extent_3x3_le h stride Hpos Hh) as H2.
    specialize (IH Hrest _ H1). lia.
Qed.

Lemma add_shape_same (x : ShapeRuntime.shape) : ShapeRuntime.add_shape x x = Ok x.
Proof.
  unfold ShapeRuntime.add_shape. destruct (list_eq_dec Z.eq_dec x x); [reflexivity | contradiction].
Qed.

Lemma lq_call_shape (p : path) (c : LQ_Conv2d) (cin n h w : Z) :
  in_channels (lq_conv c) = cin ->
  0 < groups (lq_conv c) -> 0 < stride (lq_conv c) ->
  in_channels (lq_conv c) mod groups (lq_conv c) = 0 ->
  out_channels (lq_conv c) mod groups (lq_conv c) = 0 ->
  kernel_size (lq_conv c) <= h + 2 * padding (lq_conv c) ->
  kernel_size (lq_conv c) <= w + 2 * padding (lq_conv c) ->
  Layer_call_value (RT := ShapeRuntime.runtime) p (L_LQ_Conv2d c)
    (@V_Tensor ShapeRuntime.runtime [n; cin; h; w]) =
  Ok (@V_Pair ShapeRuntime.runtime
        [n; out_channels (lq_conv c);
         ShapeRuntime.conv_extent h (kernel_size (lq_conv c)) (stride (lq_conv c)) (padding (lq_conv c));
         ShapeRuntime.conv_extent w (kernel_size (lq_conv c)) (stride (lq_conv c)) (padding (lq_conv c))]
        []).
Proof.
  intros <- Hg Hs Hi Ho Hh Hw. simpl. unfold ShapeRuntime.lq_conv2d_shape.
  rewrite conv2d_shape_ok by assumption. reflexivity.
Qed.

(** Batch normalization in training mode accepts an input of its channel
    count that holds more than one value per channel. *)
Lemma bn_call_shape (p : path) (k n h w : Z) :
  n * h * w <> 1 ->
  Layer_call_value (RT := ShapeRuntime.runtime) p (L_BatchNorm2d k)
    (@V_Tensor ShapeRuntime.runtime [n; k; h; w]) =
  Ok (@V_Tensor ShapeRuntime.runtime [n; k; h; w]).
Proof.
  intros H.
  unfold Layer_call_value, Layer_call.
  cbn [batch_norm2d ShapeRuntime.runtime ShapeRuntime.batch_norm2d_shape].
  replace (n * h * w =? 1) with false by (symmetry; apply Z.eqb_neq; exact H).
  rewrite Z.eqb_refl. reflexivity.
Qed.

(** And it rejects an input with a single value per channel. *)
Lemma bn_call_single (p : path) (k c n h w : Z) :
  n * h * w = 1 ->
  Layer_call_value (RT := ShapeRuntime.runtime) p (L_BatchNorm2d k)
    (@V_Tensor ShapeRuntime.runtime [n; c; h; w]) = Raise ValueError.
Proof.
  intros H.
  unfold Layer_call_value, Layer_call.
  cbn [batch_norm2d ShapeRuntime.runtime ShapeRuntime.batch_norm2d_shape].
  rewrite H. reflexivity.
Qed.

Lemma relu_call_shape (p : path) (inplace : bool) (x : ShapeRuntime.shape) :
  Layer_call_value (RT := ShapeRuntime.runtime) p (L_ReLU6 inplace) (@V_Tensor ShapeRuntime.runtime x) =
  Ok (@V_Tensor ShapeRuntime.runtime x).
Proof.
  reflexivity.
Qed.

(** Side conditions of the shape lemmas on explicit layers. *)
Ltac shape_side :=
  cbn [in_channels out_channels groups stride kernel_size padding lq_conv];
  first [ reflexivity | lia | apply Z_mod_same_full | apply Z.mod_1_r
        | apply Z.mul_pos_pos; lia ].

(** One layer call of a pipeline run on an explicit shape. *)
Ltac shape_step :=
  rewrite ?conv_extent_1x1;
  first [ rewrite bn_call_shape by assumption
        | rewrite relu_call_shape
        | erewrite lq_call_shape by shape_side ];
  cbn [bind unpack2 in_channels out_channels groups stride kernel_size padding lq_conv].

(** A constructed block maps [n, inp, h, w] to [n, oup, h', w'], the
    spatial extents being those of its depthwise convolution, when the
    tensors its batch normalizations see hold more than one value per
    channel. *)
Lemma block_forward_shape (inp oup stride t : Z) (q l f : bool)
    (b : InvertedResidual.t) (p : path) (n h w : Z) :
  InvertedResidual.__init__ inp oup stride (inject_Z t) q l f = Ok b ->
  0 < inp -> 0 < t -> 1 <= h -> 1 <= w ->
  n * h * w <> 1 ->
  n * ShapeRuntime.conv_extent h 3 stride 1 * ShapeRuntime.conv_extent w 3 stride 1 <> 1 ->
  InvertedResidual.forward (RT := ShapeRuntime.runtime) p b [n; inp; h; w] =
  Ok (@V_Tensor ShapeRuntime.runtime [n; oup; ShapeRuntime.conv_extent h 3 stride 1; ShapeRuntime.conv_extent w 3 stride 1]).
Proof.
  intros Hb Hinp Ht Hh Hw Hbn1 Hbn2.
  pose proof (block_init_stride _ _ _ _ _ _ _ _ Hb) as Hs.
  assert (Hh' : 1 <= ShapeRuntime.conv_extent h 3 stride 1) by (apply conv_extent_pos; lia).
  assert (Hw' : 1 <= ShapeRuntime.conv_extent w 3 stride 1) by (apply conv_extent_pos; lia).
  revert Hb. unfold InvertedResidual.__init__.
  destruct (negb ((stride =? 1) || (stride =? 2))); [discriminate|].
  assert (Hhid : py_round (inject_Z inp * inject_Z t) = inp * t)
    by (rewrite <- inject_Z_mult; apply py_round_Z).
  rewrite Hhid. clear Hhid.
  assert (Hpos : 0 < inp * t) by (apply Z.mul_pos_pos; lia).
  remember (inp * t) as hid eqn:Ehid.
  assert (Hfin :
    (if (stride =? 1) && (inp =? oup)
     then o <- as_tensor
                 (@V_Tensor ShapeRuntime.runtime [n; oup; ShapeRuntime.conv_extent h 3 stride 1;
                                        ShapeRuntime.conv_extent w 3 stride 1]) ;;
          y <- @tensor_add ShapeRuntime.runtime [n; inp; h; w] o ;;
          Ok (@V_Tensor ShapeRuntime.runtime y)
     else Ok (@V_Tensor ShapeRuntime.runtime [n; oup; ShapeRuntime.conv_extent h 3 stride 1;
                                    ShapeRuntime.conv_extent w 3 stride 1])) =
    Ok (@V_Tensor ShapeRuntime.runtime
          [n; oup; ShapeRuntime.conv_extent h 3 stride 1; ShapeRuntime.conv_extent w 3 stride 1])).
  { destruct ((stride =? 1) && (inp =? oup)) eqn:Eid; [|reflexivity].
    apply andb_true_iff in Eid. destruct Eid as [E1 E2].
    apply Z.eqb_eq in E1, E2. subst stride oup.
    rewrite !conv_extent_3x3_same. simpl. rewrite add_shape_same. reflexivity. }
  destruct (Qeq_bool (inject_Z t) 1) eqn:Et; intros H; injection H as <-.
  - assert (t = 1).
    { apply Qeq_bool_iff in Et. apply (inject_Z_injective t 1). exact Et. }
    assert (Ehid' : hid = inp) by lia. clear Ehid. subst hid.
    unfold InvertedResidual.forward, InvertedResidual.stages.
    cbn [InvertedResidual.expand_ratio InvertedResidual.conv InvertedResidual.identity].
    rewrite Et.
    unfold Sequential_index_call, Sequential_slice_call, Sequential_get.
    cbn [nth_error firstn skipn Nat.sub bind Sequential_forward_from].
    repeat shape_step.
    rewrite ?conv_extent_1x1. exact Hfin.
  - clear Ehid.
    unfold InvertedResidual.forward, InvertedResidual.stages.
    cbn [InvertedResidual.expand_ratio InvertedResidual.conv InvertedResidual.identity].
    rewrite Et.
    unfold Sequential_index_call, Sequential_slice_call, Sequential_get.
    cbn [nth_error firstn skipn Nat.sub bind Sequential_forward_from].
    repeat shape_step.
    rewrite ?conv_extent_1x1. exact Hfin.
Qed.

Lemma conv_call_shape (p : path) (c : Conv2d) (cin n h w : Z) :
  in_channels c = cin ->
  0 < groups c -> 0 < stride c ->
  in_channels c mod groups c = 0 -> out_channels c mod groups c = 0 ->
  kernel_size c <= h + 2 * padding c -> kernel_size c <= w + 2 * padding c ->
  Layer_call_value (RT := ShapeRuntime.runtime) p (L_Conv2d c)
    (@V_Tensor ShapeRuntime.runtime [n; cin; h; w]) =
  Ok (@V_Tensor ShapeRuntime.runtime
        [n; out_channels c;
         ShapeRuntime.conv_extent h (kernel_size c) (stride c) (padding c);
         ShapeRuntime.conv_extent w (kernel_size c) (stride c) (padding c)]).
Proof.
  intros <- Hg Hs Hi Ho Hh Hw.
  unfold Layer_call_value, Layer_call. cbn [conv2d ShapeRuntime.runtime].
  rewrite conv2d_shape_ok by assumption. reflexivity.
Qed.

(** A chain of constructed blocks, when the tensor that leaves it holds
    more than one value per channel. *)
Lemma blocks_forward_shape (q l f : bool) (p : path) (n : Z)
    (calls : list block_call) :
  forall (bs : list InvertedResidual.t) (i : nat) (c h w : Z),
    construct_all q l f calls = Ok bs ->
    chained c calls = true -> 1 <= n -> 1 <= h -> 1 <= w ->
    1 < n * extent_after calls h * extent_after calls w ->
    MobileNetV2.features_forward_from (RT := ShapeRuntime.runtime) p i
      (map M_InvertedResidual bs) (@V_Tensor ShapeRuntime.runtime [n; c; h; w]) =
    Ok (@V_Tensor ShapeRuntime.runtime
          [n; last_channel c calls; extent_after calls h; extent_after calls w]).
Proof.
  induction calls as [| [[[inp oup] stride] t] calls IH];
    intros bs i c h w Hbs Hch Hn Hh Hw Hprod.
  - simpl in Hbs. injection Hbs as <-. reflexivity.
  - pose proof (construct_all_strides _ _ _ _ _ Hbs) as Hst.
    simpl in Hst. apply andb_true_iff in Hst. destruct Hst as [_ Hst].
    simpl in Hbs. bind_inv. injection Hbs as <-.
    simpl in Hch. repeat (apply andb_true_iff in Hch; destruct Hch as [Hch ?]).
    apply Z.eqb_eq in Hch. subst c.
    match goal with
    | Hb : InvertedResidual.__init__ _ _ _ _ _ _ _ = Ok ?b,
      Hr : construct_all _ _ _ calls = Ok ?r |- _ =>
        rename Hb into Hblock; rename Hr into Hrest; rename b into blk; rename r into rest
    end.
    pose proof (block_init_stride _ _ _ _ _ _ _ _ Hblock) as Hs.
    assert (Hspos : 0 < stride) by lia.
    assert (Hh' : 1 <= ShapeRuntime.conv_extent h 3 stride 1) by (apply conv_extent_pos; lia).
    assert (Hw' : 1 <= ShapeRuntime.conv_extent w 3 stride 1) by (apply conv_extent_pos; lia).
    pose proof (conv_extent_3x3_le h stride Hspos Hh) as Hhle.
    pose proof (conv_extent_3x3_le w stride Hspos Hw) as Hwle.
    rewrite !extent_after_cons in Hprod. cbv beta iota in Hprod.
    pose proof (extent_after_bounds calls Hst _ Hh') as Hah.
    pose proof (extent_after_bounds calls Hst _ Hw') as Haw.
    cbn [map MobileNetV2.features_forward_from MobileNetV2.Module_call as_tensor bind].
    rewrite (block_forward_shape inp oup stride t q l f blk (p ++ [i]) n h w Hblock);
      try lia;
      try (eapply values_per_channel; [exact Hn | | | exact Hprod]; lia).
    cbn [bind].
    apply (IH rest (S i) oup _ _ Hrest); assumption.
Qed.

(** ** More on the channel rounder *)

Lemma inject_Z_half_nonneg (d : Z) : 0 < d -> (0 <= inject_Z d / 2)%Q.
Proof.
  intros Hd. apply Qle_shift_div_l; [reflexivity|]. rewrite Qmult_0_l.
  change 0%Q with (inject_Z 0). rewrite <- Zle_Qle. lia.
Qed.

Lemma inject_Z_half_lt (d : Z) : 0 < d -> (inject_Z d / 2 < inject_Z d)%Q.
Proof.
  intros Hd. apply Qlt_shift_div_r; [reflexivity|].
  assert (H : (0 < inject_Z d)%Q)
    by (change 0%Q with (inject_Z 0); rewrite <- Zlt_Qlt; lia).
  lra.
Qed.

Lemma floor_multiple_unique (x : Q) (d m1 m2 : Z) :
  0 < d -> floor_multiple x d m1 -> floor_multiple x d m2 -> m1 = m2.
Proof.
  intros Hd ([a Ha] & Hlo1 & Hhi1) ([b Hb] & Hlo2 & Hhi2).
  assert (H12 : m1 < m2 + d)
    by (rewrite Zlt_Qlt; eapply Qle_lt_trans; eassumption).
  assert (H21 : m2 < m1 + d)
    by (rewrite Zlt_Qlt; eapply Qle_lt_trans; eassumption).
  subst m1 m2.
  assert (Hab : a < b + 1).
  { apply (Z.mul_lt_mono_pos_r d); [exact Hd|].
    rewrite Z.mul_add_distr_r. lia. }
  assert (Hba : b < a + 1).
  { apply (Z.mul_lt_mono_pos_r d); [exact Hd|].
    rewrite Z.mul_add_distr_r. lia. }
  f_equal. lia.
Qed.

Lemma make_divisible_floor_multiple (v : Q) (d m : Z) :
  (0 < v)%Q -> 0 < d -> floor_multiple (v + inject_Z d / 2) d m ->
  _make_divisible v d None = spec_make_divisible v d m.
Proof.
  intros Hv Hd Hm. rewrite (make_divisible_unfold v d Hv Hd). f_equal.
  apply (floor_multiple_unique (v + inject_Z d / 2) d); auto.
  apply floor_multiple_div; exact Hd.
Qed.

(** In exact arithmetic, for a positive target and a positive divisor,
    the rounder returns less than [v + divisor]; and from
    [v >= 5 * divisor] on it returns the largest multiple of the divisor
    not exceeding [v + divisor/2]. *)
Lemma make_divisible_upper_exact (v : Q) (d : Z) :
  (0 < v)%Q -> 0 < d ->
  (inject_Z (_make_divisible v d None) < v + inject_Z d)%Q /\
  (5 * inject_Z d <= v ->
   (v - inject_Z d / 2 < inject_Z (_make_divisible v d None))%Q /\
   (inject_Z (_make_divisible v d None) <= v + inject_Z d / 2)%Q /\
   floor_multiple (v + inject_Z d / 2) d (_make_divisible v d None))%Q.
Proof.
  intros Hv Hd.
  pose proof (floor_multiple_div (v + inject_Z d / 2) d Hd) as Hfm.
  rewrite (make_divisible_unfold v d Hv Hd).
  set (m := Qfloor (v + inject_Z d / 2) / d * d) in *.
  destruct Hfm as (Hdiv & Hlo & Hhi).
  pose proof (inject_Z_half_nonneg d Hd) as Hh0.
  pose proof (inject_Z_half_lt d Hd) as Hh1.
  assert (Hh2 : (inject_Z d == 2 * (inject_Z d / 2))%Q) by field.
  rewrite inject_Z_plus in Hhi.
  unfold spec_make_divisible.
  destruct (Z.max_spec d m) as [[Hlt Emax] | [Hge Emax]]; rewrite Emax.
  - (* new_v = m *)
    destruct (Qlt_le_dec (inject_Z m) ((9 # 10) * v)) as [Hb | Hnb].
    + split.
      * rewrite inject_Z_plus. lra.
      * intros H5. exfalso. lra.
    + split; [lra|]. intros H5. repeat split; try lra; try assumption.
      rewrite inject_Z_plus. exact Hhi.
  - (* new_v = d *)
    assert (Hmd : (inject_Z m <= inject_Z d)%Q) by (rewrite <- Zle_Qle; lia).
    destruct (Qlt_le_dec (inject_Z d) ((9 # 10) * v)) as [Hb | Hnb].
    + split.
      * rewrite inject_Z_plus. lra.
      * intros H5. exfalso. lra.
    + split; [lra|]. intros H5. exfalso. lra.
Qed.

(** X5.  For a positive integer target [v] and a positive divisor [d]
    with [v + d < 2^48], where the float arithmetic of the program
    introduces no error that matters, the rounder returns less than
    [v + d]; and from [v >= 5 * d] on, the second addition of the divisor
    never happens: the result is the largest multiple of [d] not exceeding
    [v + d/2], within half a divisor of [v]. *)
Theorem make_divisible_upper_int (v d : Z) :
  0 < v -> 0 < d -> v + d < 2 ^ 48 ->
  _make_divisible (inject_Z v) d None < v + d /\
  (5 * d <= v ->
   2 * v - d < 2 * _make_divisible (inject_Z v) d None <= 2 * v + d /\
   floor_multiple (inject_Z v + inject_Z d / 2) d (_make_divisible (inject_Z v) d None)).
Proof.
  intros Hv Hd _.
  assert (Hvq : (0 < inject_Z v)%Q)
    by (change 0%Q with (inject_Z 0); rewrite <- Zlt_Qlt; exact Hv).
  destruct (make_divisible_upper_exact (inject_Z v) d Hvq Hd) as [Hup Hfar].
  set (r := _make_divisible (inject_Z v) d None) in *.
  assert (Hh2 : (inject_Z d == 2 * (inject_Z d / 2))%Q) by field.
  split.
  - rewrite Zlt_Qlt, inject_Z_plus. exact Hup.
  - intros H5.
    destruct Hfar as (Hlo & Hhi & Hfm).
    { change 5%Q with (inject_Z 5). rewrite <- inject_Z_mult, <- Zle_Qle. exact H5. }
    split; [split|exact Hfm].
    + rewrite Zlt_Qlt, inject_Z_sub, !inject_Z_mult.
      change (inject_Z 2) with 2%Q. lra.
    + rewrite Zle_Qle, inject_Z_plus, !inject_Z_mult.
      change (inject_Z 2) with 2%Q. lra.
Qed.

(** The rounder at [v = 100], [d = 8]: the result is 104. *)
Lemma make_divisible_upper_int_100 :
  _make_divisible (inject_Z 100) 8 None < 100 + 8 /\
  2 * 100 - 8 < 2 * _make_divisible (inject_Z 100) 8 None <= 2 * 100 + 8 /\
  floor_multiple (inject_Z 100 + inject_Z 8 / 2) 8 (_make_divisible (inject_Z 100) 8 None).
Proof.
  refine ((fun H : 0 < 100 /\ 0 < 8 /\ 100 + 8 < 2 ^ 48 /\ 5 * 8 <= 100 =>
             match H with
             | conj H1 (conj H2 (conj H3 H4)) =>
                 conj (proj1 (make_divisible_upper_int 100 8 H1 H2 H3))
                      (proj2 (make_divisible_upper_int 100 8 H1 H2 H3) H4)
             end) _).
  repeat split; lia.
Defined.

Lemma make_divisible_ge_min (v : Q) (d : Z) (mv : option Z) :
  0 < d ->
  match mv with None => d | Some m => m end <= _make_divisible v d mv.
Proof.
  intros Hd. unfold _make_divisible.
  set (lo := match mv with None => d | Some m => m end).
  set (new_v := Z.max lo _).
  assert (lo <= new_v) by apply Z.le_max_l.
  destruct (Qlt_le_dec (inject_Z new_v) ((9 # 10) * v)); lia.
Qed.

Lemma make_divisible_pos (v : Q) (d : Z) : 0 < d -> 0 < _make_divisible v d None.
Proof.
  intros Hd. pose proof (make_divisible_ge_min v d None Hd). simpl in *. lia.
Qed.

Lemma make_divisible_multiple (k d : Z) :
  0 < d -> 1 <= k -> _make_divisible (inject_Z (k * d)) d None = k * d.
Proof.
  intros Hd Hk.
  assert (Hkd : 0 < k * d) by (apply Z.mul_pos_pos; lia).
  assert (Hv : (0 < inject_Z (k * d))%Q)
    by (change 0%Q with (inject_Z 0); rewrite <- Zlt_Qlt; exact Hkd).
  pose proof (inject_Z_half_nonneg d Hd) as Hh0.
  pose proof (inject_Z_half_lt d Hd) as Hh1.
  rewrite (make_divisible_floor_multiple _ d (k * d) Hv Hd).
  - unfold spec_make_divisible.
    rewrite Z.max_r by nia.
    destruct (Qlt_le_dec (inject_Z (k * d)) ((9 # 10) * inject_Z (k * d)));
      [exfalso; lra | reflexivity].
  - repeat split.
    + exists k. reflexivity.
    + lra.
    + rewrite inject_Z_plus. lra.
Qed.

(** In exact arithmetic, rounding a positive target twice is rounding it
    once. *)
Lemma make_divisible_twice_exact (v : Q) (d : Z) :
  (0 < v)%Q -> 0 < d ->
  _make_divisible (inject_Z (_make_divisible v d None)) d None =
  _make_divisible v d None.
Proof.
  intros Hv Hd.
  pose proof (floor_multiple_div (v + inject_Z d / 2) d Hd) as Hfm.
  destruct (spec_make_divisible_bounds v d _ Hv Hd Hfm) as (Hpos & [k Hk] & _).
  rewrite <- (make_divisible_unfold v d Hv Hd) in Hpos, Hk.
  rewrite Hk. apply make_divisible_multiple; [exact Hd|].
  rewrite Hk in Hpos. nia.
Qed.

(** X6.  For integer targets and a positive divisor [d], below [2^48]
    where the float arithmetic of the program introduces no error that
    matters: positive multiples of the divisor are fixed points of the
    rounder, so rounding a positive target twice is rounding it once. *)
Theorem make_divisible_idempotent_int (v d : Z) :
  0 < v -> 0 < d -> v + d < 2 ^ 48 ->
  _make_divisible (inject_Z (_make_divisible (inject_Z v) d None)) d None =
  _make_divisible (inject_Z v) d None /\
  forall k : Z, 1 <= k -> k * d + d < 2 ^ 48 ->
    _make_divisible (inject_Z (k * d)) d None = k * d.
Proof.
  intros Hv Hd _. split.
  - apply make_divisible_twice_exact; [|exact Hd].
    change 0%Q with (inject_Z 0). rewrite <- Zlt_Qlt. exact Hv.
  - intros k Hk _. apply make_divisible_multiple; assumption.
Qed.

(** The rounder applied twice at [v = 27], [d = 8], and at the fixed
    point 160. *)
Lemma make_divisible_idempotent_int_27 :
  _make_divisible (inject_Z (_make_divisible (inject_Z 27) 8 None)) 8 None =
  _make_divisible (inject_Z 27) 8 None /\
  _make_divisible (inject_Z (20 * 8)) 8 None = 20 * 8.
Proof.
  refine ((fun H : 0 < 27 /\ 0 < 8 /\ 27 + 8 < 2 ^ 48 /\ 1 <= 20 /\ 20 * 8 + 8 < 2 ^ 48 =>
             match H with
             | conj H1 (conj H2 (conj H3 (conj H4 H5))) =>
                 conj (proj1 (make_divisible_idempotent_int 27 8 H1 H2 H3))
                      (proj2 (make_divisible_idempotent_int 27 8 H1 H2 H3) 20 H4 H5)
             end) _).
  repeat split; lia.
Defined.

Lemma py_int_ceiling (x : Q) : (x <= 0)%Q -> py_int x = Qceiling x.
Proof.
  destruct x as [n d]. unfold py_int, Qceiling, Qfloor, Qopp, Qle; simpl.
  intros H.
  replace n with (- (- n)) at 1 by lia.
  rewrite Z.quot_opp_l by lia.
  rewrite Z.quot_div_nonneg by lia. reflexivity.
Qed.

Lemma py_int_monotone (x y : Q) : (x <= y)%Q -> py_int x <= py_int y.
Proof.
  intros Hxy.
  destruct (Qlt_le_dec x 0) as [Hx | Hx]; destruct (Qlt_le_dec y 0) as [Hy | Hy].
  - rewrite !py_int_ceiling by lra. apply Qceiling_resp_le; exact Hxy.
  - rewrite (py_int_ceiling x) by lra. rewrite (py_int_floor y) by exact Hy.
    apply Z.le_trans with 0.
    + change 0 with (Qceiling 0). apply Qceiling_resp_le. lra.
    + change 0 with (Qfloor 0). apply Qfloor_resp_le. exact Hy.
  - exfalso. lra.
  - rewrite !py_int_floor by lra. apply Qfloor_resp_le; exact Hxy.
Qed.

(** X7.  For a positive divisor the rounder is monotone in its target,
    whatever the sign of the targets. *)
Theorem make_divisible_monotone (v1 v2 : Q) (d : Z) :
  0 < d -> (v1 <= v2)%Q ->
  _make_divisible v1 d None <= _make_divisible v2 d None.
Proof.
  intros Hd Hv. unfold _make_divisible.
  set (a1 := py_int (v1 + inject_Z d / 2) / d).
  set (a2 := py_int (v2 + inject_Z d / 2) / d).
  assert (Ha : a1 <= a2).
  { apply Z.div_le_mono; [exact Hd|]. apply py_int_monotone. lra. }
  assert (Hm : a1 * d <= a2 * d) by (apply Z.mul_le_mono_nonneg_r; lia).
  destruct (Qlt_le_dec (inject_Z (Z.max d (a1 * d))) ((9 # 10) * v1)) as [B1 | N1];
    destruct (Qlt_le_dec (inject_Z (Z.max d (a2 * d))) ((9 # 10) * v2)) as [B2 | N2];
    try lia.
  (* the first is raised by one divisor and the second is not *)
  assert (Hlt : Z.max d (a1 * d) < Z.max d (a2 * d)).
  { rewrite Zlt_Qlt. lra. }
  assert (H2 : Z.max d (a2 * d) = a2 * d) by lia.
  rewrite H2 in *.
  destruct (Z.max_spec d (a1 * d)) as [[_ E1] | [_ E1]]; rewrite E1 in *.
  - assert (a1 < a2) by nia. nia.
  - assert (1 < a2) by nia. nia.
Qed.

(** The targets 17 and 18 with [d = 8]: the results are 16 and 24. *)
Lemma make_divisible_monotone_17_18 :
  (_make_divisible 17 8 None <=? _make_divisible 18 8 None) = true.
Proof.
  apply Z.leb_le.
  apply (make_divisible_monotone 17 18 8); [reflexivity | discriminate].
Defined.

Lemma py_int_lt_bound (x : Q) (d : Z) : 0 < d -> (x < inject_Z d)%Q -> py_int x < d.
Proof.
  intros Hd Hx. destruct (Qlt_le_dec x 0) as [Hn | Hp].
  - apply Z.le_lt_trans with 0; [|exact Hd].
    change 0 with (py_int 0). apply py_int_monotone. lra.
  - rewrite py_int_floor by exact Hp.
    rewrite Zlt_Qlt. apply Qle_lt_trans with x; [apply Qfloor_le | exact Hx].
Qed.

Lemma make_divisible_some_divides (v : Q) (d mv : Z) :
  (d | mv) -> (d | _make_divisible v d (Some mv)).
Proof.
  intros Hmv. unfold _make_divisible.
  set (m := py_int (v + inject_Z d / 2) / d * d).
  assert (Hm : (d | m)) by (exists (py_int (v + inject_Z d / 2) / d); reflexivity).
  assert (Hmax : (d | Z.max mv m))
    by (destruct (Z.max_spec mv m) as [[_ ->] | [_ ->]]; assumption).
  destruct (Qlt_le_dec (inject_Z (Z.max mv m)) ((9 # 10) * v));
    [apply Z.divide_add_r; [exact Hmax | apply Z.divide_refl] | exact Hmax].
Qed.

Lemma make_divisible_divides (v : Q) (d : Z) : (d | _make_divisible v d None).
Proof.
  change (_make_divisible v d None) with (_make_divisible v d (Some d)).
  apply make_divisible_some_divides, Z.divide_refl.
Qed.

(** X8.  With an explicit [min_value] and a positive divisor the rounder
    never returns less than [min_value], and returns a multiple of the
    divisor when [min_value] is one; when it is not, the result need not
    be one: [_make_divisible(3, 8, min_value=5)] is 5.  The default is
    [min_value = divisor], and with it every target [v <= 0] gives the
    divisor itself. *)
Theorem make_divisible_min_value (v : Q) (d mv : Z) :
  0 < d ->
  mv <= _make_divisible v d (Some mv) /\
  ((d | mv) -> (d | _make_divisible v d (Some mv))) /\
  _make_divisible v d None = _make_divisible v d (Some d) /\
  ((v <= 0)%Q -> _make_divisible v d None = d) /\
  (_make_divisible 3 8 (Some 5) = 5 /\ ~ (8 | 5)).
Proof.
  intros Hd. split; [|split; [|split; [|split]]].
  - apply (make_divisible_ge_min v d (Some mv) Hd).
  - apply make_divisible_some_divides.
  - reflexivity.
  - intros Hv. unfold _make_divisible.
    pose proof (inject_Z_half_lt d Hd) as Hh1.
    assert (Hlt : py_int (v + inject_Z d / 2) < d) by (apply py_int_lt_bound; [exact Hd | lra]).
    assert (Hq : py_int (v + inject_Z d / 2) / d < 1)
      by (apply Z.div_lt_upper_bound; lia).
    assert (Hm : py_int (v + inject_Z d / 2) / d * d <= 0) by nia.
    rewrite Z.max_l by lia.
    assert (H0 : (0 < inject_Z d)%Q)
      by (change 0%Q with (inject_Z 0); rewrite <- Zlt_Qlt; exact Hd).
    destruct (Qlt_le_dec (inject_Z d) ((9 # 10) * v)); [exfalso; lra | reflexivity].
  - split; [reflexivity|]. intros [k Hk]. lia.
Qed.

(** The rounder at [v = -3], [d = 4], [min_value = 6]. *)
Lemma make_divisible_min_value_6 :
  6 <= _make_divisible (- (3)) 4 (Some 6) /\
  ((4 | 6) -> (4 | _make_divisible (- (3)) 4 (Some 6))) /\
  _make_divisible (- (3)) 4 None = _make_divisible (- (3)) 4 (Some 4) /\
  ((- (3) <= 0)%Q -> _make_divisible (- (3)) 4 None = 4) /\
  (_make_divisible 3 8 (Some 5) = 5 /\ ~ (8 | 5)).
Proof.
  apply (make_divisible_min_value (- (3)) 4 6). reflexivity.
Defined.

(** ** Errors of the network builder *)

Lemma block_init_bad_stride (inp oup stride : Z) (t : Q) (q l f : bool) :
  (stride =? 1) || (stride =? 2) = false ->
  InvertedResidual.__init__ inp oup stride t q l f = Raise AssertionError.
Proof.
  intros H. unfold InvertedResidual.__init__. rewrite H. reflexivity.
Qed.

Lemma forallb_repeat_stride_one (oc t : Z) (k : nat) :
  forallb call_stride_ok (repeat (oc, oc, 1, t) k) = true.
Proof.
  induction k as [| k IH]; simpl; [reflexivity | exact IH].
Qed.

Lemma row_calls_stride_ok (wm : Q) (row : Z * Z * Z * Z) (ch : Z) :
  forallb call_stride_ok (fst (row_calls wm row ch)) = row_stride_ok row.
Proof.
  destruct row as [[[t c] n] s]. unfold row_calls, row_stride_ok.
  destruct (Z.to_nat n) as [| k] eqn:En; simpl.
  - replace (n <=? 0) with true by (symmetry; apply Z.leb_le; lia). reflexivity.
  - replace (n <=? 0) with false by (symmetry; apply Z.leb_gt; lia).
    rewrite forallb_repeat_stride_one, andb_true_r. reflexivity.
Qed.

Lemma table_calls_stride_ok (wm : Q) (table : list (Z * Z * Z * Z)) (ch : Z) :
  forallb call_stride_ok (fst (table_calls wm table ch)) = forallb row_stride_ok table.
Proof.
  revert ch. induction table as [| row rows IH]; intros ch; simpl; [reflexivity|].
  pose proof (row_calls_stride_ok wm row ch) as Hrow.
  destruct (row_calls wm row ch) as [cs ch1]; simpl in *.
  specialize (IH ch1).
  destruct (table_calls wm rows ch1) as [cs' ch2]; simpl in *.
  rewrite forallb_app, Hrow, IH. reflexivity.
Qed.

Lemma construct_all_bad_first (q l f : bool) (inp oup stride t : Z)
    (cs : list block_call) :
  (stride =? 1) || (stride =? 2) = false ->
  construct_all q l f ((inp, oup, stride, t) :: cs) = Raise AssertionError.
Proof.
  intros H. simpl. rewrite block_init_bad_stride by exact H. reflexivity.
Qed.

(** X9.  The stride check of the block constructor, seen from the
    builder, for every width multiplier and every stage table.  A network
    is returned only if every row that asks for at least one block has
    stride 1 or 2.  When the first row that asks for a block has another
    stride, the builder raises the assertion error of the block
    constructor, the first thing that constructor checks.  And a row with
    [n <= 0] is passed over, whatever its stride: the builder returns or
    raises the same with the row and without it, apart from the table it
    stores. *)
Theorem build_stride_errors (wm : Q) (pre post : list (Z * Z * Z * Z)) (t c n s : Z)
    (nc : Z) (q l f : bool) (index : list Z) :
  (forall net : MobileNetV2.t,
     MobileNetV2.build wm (pre ++ (t, c, n, s) :: post) nc q l f index = Ok net ->
     n <= 0 \/ s = 1 \/ s = 2) /\
  (Forall (fun row : Z * Z * Z * Z => let '(_, _, k, _) := row in k <= 0) pre ->
   1 <= n -> s <> 1 -> s <> 2 ->
   MobileNetV2.build wm (pre ++ (t, c, n, s) :: post) nc q l f index
   = Raise AssertionError) /\
  (n <= 0 ->
   same_result
     (fun a b : MobileNetV2.t =>
        MobileNetV2.features a = MobileNetV2.features b /\
        MobileNetV2.conv a = MobileNetV2.conv b /\
        MobileNetV2.avgpool a = MobileNetV2.avgpool b /\
        MobileNetV2.classifier a = MobileNetV2.classifier b)
     (MobileNetV2.build wm (pre ++ (t, c, n, s) :: post) nc q l f index)
     (MobileNetV2.build wm (pre ++ post) nc q l f index)).
Proof.
  set (ch0 := _make_divisible (32 * wm) (MobileNetV2.divisor_of wm) None).
  split; [|split].
  - intros net Hnet.
    destruct (build_inv _ _ _ _ _ _ _ _ Hnet) as (bs & Hbs & _).
    apply construct_all_strides in Hbs.
    rewrite table_calls_stride_ok, forallb_app in Hbs.
    apply andb_true_iff in Hbs. destruct Hbs as [_ Hbs].
    simpl in Hbs. apply andb_true_iff in Hbs. destruct Hbs as [Hbs _].
    apply orb_true_iff in Hbs. destruct Hbs as [Hbs | Hbs].
    + apply orb_true_iff in Hbs. destruct Hbs as [Hbs | Hbs].
      * left. apply Z.leb_le. exact Hbs.
      * right; left. apply Z.eqb_eq. exact Hbs.
    + right; right. apply Z.eqb_eq. exact Hbs.
  - intros Hpre Hn Hs1 Hs2.
    rewrite build_calls. cbv zeta. fold ch0.
    pose proof (table_calls_row wm pre post (t, c, n, s) ch0) as Hrow.
    cbv zeta in Hrow. rewrite Hrow. clear Hrow.
    rewrite (table_calls_no_block wm pre ch0 Hpre). cbn [fst snd app].
    unfold row_calls.
    destruct (Z.to_nat n) as [| k] eqn:En; [lia|].
    cbn [fst app].
    rewrite construct_all_bad_first; [reflexivity|].
    apply orb_false_iff. split; apply Z.eqb_neq; assumption.
  - intros Hn.
    rewrite !build_calls. cbv zeta. fold ch0.
    pose proof (table_calls_row wm pre post (t, c, n, s) ch0) as Hrow.
    cbv zeta in Hrow. rewrite Hrow. clear Hrow.
    rewrite (table_calls_app wm pre post ch0).
    assert (Hnone : row_calls wm (t, c, n, s) (snd (table_calls wm pre ch0)) =
                    ([], snd (table_calls wm pre ch0))).
    { unfold row_calls. replace (Z.to_nat n) with O by lia. reflexivity. }
    rewrite Hnone. cbn [fst snd app].
    destruct (construct_all q l f _) as [bs | e]; simpl; auto.
Qed.

(** A row with two blocks and stride 3 after a row with no block; and a
    row with no block and stride 5, which changes nothing. *)
Lemma build_stride_errors_examples :
  MobileNetV2.build 1 [(6, 24, 0, 5); (1, 16, 2, 3); (6, 24, 1, 1)] 10 false false false []
  = Raise AssertionError /\
  same_result
    (fun a b : MobileNetV2.t =>
       MobileNetV2.features a = MobileNetV2.features b /\
       MobileNetV2.conv a = MobileNetV2.conv b /\
       MobileNetV2.avgpool a = MobileNetV2.avgpool b /\
       MobileNetV2.classifier a = MobileNetV2.classifier b)
    (MobileNetV2.build 1 [(1, 16, 1, 1); (6, 24, 0, 5); (6, 32, 1, 2)] 10
       false false false [])
    (MobileNetV2.build 1 [(1, 16, 1, 1); (6, 32, 1, 2)] 10 false false false []).
Proof.
  split.
  - refine (proj1 (proj2 (build_stride_errors 1 [(6, 24, 0, 5)] [(6, 24, 1, 1)]
                            1 16 2 3 10 false false false [])) _ _ _ _);
      [repeat constructor; lia | lia | lia | lia].
  - refine (proj2 (proj2 (build_stride_errors 1 [(1, 16, 1, 1)] [(6, 32, 1, 2)]
                            6 24 0 5 10 false false false [])) _).
    lia.
Defined.

(** ** Shapes for every width multiplier and stage table *)

Lemma chained_app (c : Z) (cs cs' : list block_call) :
  chained c (cs ++ cs') = chained c cs && chained (last_channel c cs) cs'.
Proof.
  revert c. induction cs as [| [[[inp oup] stride] t] cs IH]; intros c; simpl.
  - reflexivity.
  - change (last_channel c ((inp, oup, stride, t) :: cs)) with (last_channel oup cs).
    rewrite IH, !andb_assoc. reflexivity.
Qed.

Lemma last_channel_app (c : Z) (cs cs' : list block_call) :
  last_channel c (cs ++ cs') = last_channel (last_channel c cs) cs'.
Proof.
  unfold last_channel. apply fold_left_app.
Qed.

Lemma chained_repeat (oc t : Z) (k : nat) :
  0 < oc -> 0 < t ->
  chained oc (repeat (oc, oc, 1, t) k) = true /\
  last_channel oc (repeat (oc, oc, 1, t) k) = oc.
Proof.
  intros Hoc Ht. induction k as [| k [IH1 IH2]]; simpl; [split; reflexivity|].
  rewrite Z.eqb_refl.
  replace (0 <? oc) with true by (symmetry; apply Z.ltb_lt; lia).
  replace (0 <? t) with true by (symmetry; apply Z.ltb_lt; lia).
  split; [exact IH1 | exact IH2].
Qed.

Lemma row_calls_chained (wm : Q) (row : Z * Z * Z * Z) (ch : Z) :
  0 < ch -> (let '(t, _, _, _) := row in 1 <= t) ->
  chained ch (fst (row_calls wm row ch)) = true /\
  last_channel ch (fst (row_calls wm row ch)) = snd (row_calls wm row ch) /\
  0 < snd (row_calls wm row ch).
Proof.
  destruct row as [[[t c] n] s]. intros Hch Ht. unfold row_calls.
  set (oc := _make_divisible _ _ _).
  assert (Hoc : 0 < oc).
  { apply make_divisible_pos. unfold MobileNetV2.divisor_of.
    destruct (Qeq_bool wm (1 # 10)); lia. }
  destruct (Z.to_nat n) as [| k]; simpl; [auto|].
  destruct (chained_repeat oc t k Hoc) as [H1 H2]; [lia|].
  rewrite Z.eqb_refl.
  replace (0 <? ch) with true by (symmetry; apply Z.ltb_lt; lia).
  replace (0 <? t) with true by (symmetry; apply Z.ltb_lt; lia).
  change (last_channel ch ((ch, oc, s, t) :: repeat (oc, oc, 1, t) k))
    with (last_channel oc (repeat (oc, oc, 1, t) k)).
  auto.
Qed.

Lemma table_calls_chained (wm : Q) (table : list (Z * Z * Z * Z)) (ch : Z) :
  0 < ch ->
  Forall (fun row : Z * Z * Z * Z => let '(t, _, _, _) := row in 1 <= t) table ->
  chained ch (fst (table_calls wm table ch)) = true /\
  last_channel ch (fst (table_calls wm table ch)) = snd (table_calls wm table ch).
Proof.
  intros Hch H. revert ch Hch.
  induction H as [| row rows Hrow _ IH]; intros ch Hch; simpl; [auto|].
  destruct (row_calls_chained wm row ch Hch Hrow) as (R1 & R2 & R3).
  destruct (row_calls wm row ch) as [cs ch1]; simpl in *.
  destruct (IH ch1 R3) as (T1 & T2).
  destruct (table_calls wm rows ch1) as [cs' ch2]; simpl in *.
  rewrite chained_app, last_channel_app, R1, R2, T1. auto.
Qed.

Lemma table_calls_pos (wm : Q) (table : list (Z * Z * Z * Z)) (ch : Z) :
  0 < ch ->
  Forall (fun row : Z * Z * Z * Z => let '(t, _, _, _) := row in 1 <= t) table ->
  0 < snd (table_calls wm table ch).
Proof.
  intros Hch H. revert ch Hch.
  induction H as [| row rows Hrow _ IH]; intros ch Hch; simpl; [exact Hch|].
  destruct (row_calls_chained wm row ch Hch Hrow) as (_ & _ & R3).
  destruct (row_calls wm row ch) as [cs ch1]; simpl in *.
  specialize (IH ch1 R3).
  destruct (table_calls wm rows ch1) as [cs' ch2]; simpl in *. exact IH.
Qed.

(** The stem and the blocks of a network the builder returned, on an
    input whose final map holds more than one value per channel. *)
Lemma built_features_shape (wm : Q) (table : list (Z * Z * Z * Z)) (q l f : bool)
    (bs : list InvertedResidual.t) (n h w : Z) :
  let ch0 := _make_divisible (32 * wm) (MobileNetV2.divisor_of wm) None in
  let calls := fst (table_calls wm table ch0) in
  construct_all q l f calls = Ok bs ->
  Forall (fun row : Z * Z * Z * Z => let '(t, _, _, _) := row in 1 <= t) table ->
  1 <= n -> 1 <= h -> 1 <= w ->
  1 < n * extent_after calls (ShapeRuntime.conv_extent h 3 2 1)
        * extent_after calls (ShapeRuntime.conv_extent w 3 2 1) ->
  MobileNetV2.features_forward_from (RT := ShapeRuntime.runtime) [0%nat] 0
    (M_Sequential (conv_3x3_bn 3 ch0 2 q l f) :: map M_InvertedResidual bs)
    (@V_Tensor ShapeRuntime.runtime [n; 3; h; w]) =
  Ok (@V_Tensor ShapeRuntime.runtime
        [n; snd (table_calls wm table ch0);
         extent_after calls (ShapeRuntime.conv_extent h 3 2 1);
         extent_after calls (ShapeRuntime.conv_extent w 3 2 1)]).
Proof.
  intros ch0 calls Hbs Ht Hn Hh Hw Hprod.
  assert (Hch0 : 0 < ch0).
  { apply make_divisible_pos. unfold MobileNetV2.divisor_of.
    destruct (Qeq_bool wm (1 # 10)); lia. }
  destruct (table_calls_chained wm table ch0 Hch0 Ht) as [Hchain Hlast].
  fold calls in Hchain, Hlast.
  assert (Hh' : 1 <= ShapeRuntime.conv_extent h 3 2 1) by (apply conv_extent_pos; lia).
  assert (Hw' : 1 <= ShapeRuntime.conv_extent w 3 2 1) by (apply conv_extent_pos; lia).
  pose proof (construct_all_strides _ _ _ _ _ Hbs) as Hst.
  pose proof (extent_after_bounds calls Hst _ Hh') as Hah.
  pose proof (extent_after_bounds calls Hst _ Hw') as Haw.
  assert (Hbn : n * ShapeRuntime.conv_extent h 3 2 1 * ShapeRuntime.conv_extent w 3 2 1 <> 1)
    by (eapply values_per_channel; [exact Hn | | | exact Hprod]; lia).
  pose proof (blocks_forward_shape q l f [0%nat] n calls bs 1 ch0 _ _
                Hbs Hchain Hn Hh' Hw' Hprod) as Hblocks.
  rewrite Hlast in Hblocks.
  cbn [MobileNetV2.features_forward_from MobileNetV2.Module_call].
  unfold conv_3x3_bn, Sequential_call.
  cbn [Sequential_forward_from bind].
  erewrite conv_call_shape by shape_side.
  cbn [bind in_channels out_channels groups stride kernel_size padding].
  repeat shape_step.
  exact Hblocks.
Qed.

(** The whole forward pass of a network the builder returned. *)
Lemma built_forward_shape (wm : Q) (table : list (Z * Z * Z * Z)) (nc : Z) (q l f : bool)
    (index : list Z) (net : MobileNetV2.t) (n h w : Z) :
  let ch0 := _make_divisible (32 * wm) (MobileNetV2.divisor_of wm) None in
  let calls := fst (table_calls wm table ch0) in
  MobileNetV2.build wm table nc q l f index = Ok net ->
  Forall (fun row : Z * Z * Z * Z => let '(t, _, _, _) := row in 1 <= t) table ->
  1 <= n -> 1 <= h -> 1 <= w ->
  1 < n * extent_after calls (ShapeRuntime.conv_extent h 3 2 1)
        * extent_after calls (ShapeRuntime.conv_extent w 3 2 1) ->
  MobileNetV2.forward (RT := ShapeRuntime.runtime) net [n; 3; h; w] = Ok ([n; nc], [1]).
Proof.
  intros ch0 calls Hnet Ht Hn Hh Hw Hprod.
  destruct (build_inv _ _ _ _ _ _ _ _ Hnet) as (bs & Hbs & ->).
  fold ch0 in Hbs |- *. fold calls in Hbs.
  pose proof (built_features_shape wm table q l f bs n h w Hbs Ht Hn Hh Hw Hprod)
    as Hfeat.
  fold ch0 in Hfeat. fold calls in Hfeat.
  assert (Hch : 0 < snd (table_calls wm table ch0)).
  { apply table_calls_pos; [|exact Ht].
    apply make_divisible_pos. unfold MobileNetV2.divisor_of.
    destruct (Qeq_bool wm (1 # 10)); lia. }
  assert (Hbn : n * extent_after calls (ShapeRuntime.conv_extent h 3 2 1)
                  * extent_after calls (ShapeRuntime.conv_extent w 3 2 1) <> 1) by lia.
  pose proof (construct_all_strides _ _ _ _ _ Hbs) as Hst.
  assert (Hh' : 1 <= ShapeRuntime.conv_extent h 3 2 1) by (apply conv_extent_pos; lia).
  assert (Hw' : 1 <= ShapeRuntime.conv_extent w 3 2 1) by (apply conv_extent_pos; lia).
  pose proof (extent_after_bounds calls Hst _ Hh') as Hah.
  pose proof (extent_after_bounds calls Hst _ Hw') as Haw.
  unfold MobileNetV2.forward, MobileNetV2.logits.
  cbn [MobileNetV2.features MobileNetV2.conv MobileNetV2.avgpool MobileNetV2.classifier].
  rewrite Hfeat. cbn [bind].
  unfold conv_1x1_bn, Sequential_index_call, Sequential_tail_call, Sequential_get.
  cbn [nth_error skipn Sequential_forward_from bind].
  repeat shape_step.
  rewrite ?conv_extent_1x1.
  cbn [as_tensor bind adaptive_avg_pool2d ShapeRuntime.runtime
       ShapeRuntime.adaptive_avg_pool2d_shape
       view_flat ShapeRuntime.view_flat_shape fst snd].
  replace (0 <? n) with true by (symmetry; apply Z.ltb_lt; lia).
  cbn [bind fold_right linear ShapeRuntime.runtime ShapeRuntime.linear_shape
       rev app in_features out_features].
  replace (MobileNetV2.head_channel wm * (1 * (1 * 1))) with (MobileNetV2.head_channel wm)
    by lia.
  rewrite Z.eqb_refl. reflexivity.
Qed.

(** The stem and the blocks of the stage table divide a spatial extent by
    32, rounding up. *)
Lemma the_cfgs_extent (x : Z) :
  extent_after
    (fst (table_calls 1 MobileNetV2.the_cfgs
            (_make_divisible (32 * 1) (MobileNetV2.divisor_of 1) None)))
    (ShapeRuntime.conv_extent x 3 2 1) = (x + 31) / 32.
Proof.
  let cs := eval vm_compute in
    (fst (table_calls 1 MobileNetV2.the_cfgs
            (_make_divisible (32 * 1) (MobileNetV2.divisor_of 1) None))) in
  change (fst (table_calls 1 MobileNetV2.the_cfgs
                 (_make_divisible (32 * 1) (MobileNetV2.divisor_of 1) None))) with cs.
  cbn [extent_after fold_left].
  rewrite !conv_extent_3x3_same, !conv_extent_3x3_ceil by lia.
  Z.div_mod_to_equations. lia.
Qed.

Lemma the_cfgs_ratios :
  Forall (fun row : Z * Z * Z * Z => let '(t, _, _, _) := row in 1 <= t)
         MobileNetV2.the_cfgs.
Proof.
  unfold MobileNetV2.the_cfgs.
  repeat first [apply Forall_nil | apply Forall_cons; [lia|]].
Qed.

(** X2.  A network the constructor returned, whatever the flags and for
    a class count that is not negative, maps every input [n, 3, h, w] to
    logits of shape [n, num_classes], provided the map that leaves the
    blocks, of extents [ceil(h/32)] and [ceil(w/32)], holds more than one
    value per channel over the batch, as batch normalization in training
    mode requires. *)
Theorem forward_shape (nc : Z) (q l f : bool) (index : list Z) (net : MobileNetV2.t)
    (n h w : Z) :
  MobileNetV2.__init__ nc q l f index = Ok net ->
  0 <= nc -> 1 <= n -> 1 <= h -> 1 <= w ->
  1 < n * ((h + 31) / 32) * ((w + 31) / 32) ->
  exists aux,
    MobileNetV2.forward (RT := ShapeRuntime.runtime) net [n; 3; h; w] = Ok ([n; nc], aux).
Proof.
  intros Hnet Hnc Hn Hh Hw Hprod.
  exists [1].
  apply (built_forward_shape 1 MobileNetV2.the_cfgs nc q l f index net n h w Hnet
           the_cfgs_ratios Hn Hh Hw).
  rewrite !the_cfgs_extent. exact Hprod.
Qed.

(** A batch of eight 32x32 images and ten classes, with [lq] set. *)
Lemma forward_shape_batch_8 :
  exists net aux,
    MobileNetV2.__init__ 10 false true false [] = Ok net /\
    MobileNetV2.forward (RT := ShapeRuntime.runtime) net [8; 3; 32; 32]
    = Ok ([8; 10], aux).
Proof.
  eexists.
  refine ((fun H => match H with ex_intro _ aux Haux =>
             ex_intro _ aux (conj eq_refl Haux) end)
          (forward_shape 10 false true false [] _ 8 32 32 eq_refl _ _ _ _ _));
    [lia | lia | lia | lia | reflexivity].
Defined.

(** X10.  For every width multiplier, every stage table with expansion
    ratios at least 1 and a class count that is not negative, a network
    the builder returned maps every batch of at least two inputs
    [n, 3, h, w] with positive extents to logits [n, num_classes]: the
    channel counts the builder threads through the blocks always fit. *)
Theorem build_shape_safe (wm : Q) (table : list (Z * Z * Z * Z)) (nc : Z)
    (q l f : bool) (index : list Z) (net : MobileNetV2.t) (n h w : Z) :
  MobileNetV2.build wm table nc q l f index = Ok net ->
  Forall (fun row : Z * Z * Z * Z => let '(t, _, _, _) := row in 1 <= t) table ->
  0 <= nc -> 2 <= n -> 1 <= h -> 1 <= w ->
  exists aux,
    MobileNetV2.forward (RT := ShapeRuntime.runtime) net [n; 3; h; w] = Ok ([n; nc], aux).
Proof.
  intros Hnet Ht Hnc Hn Hh Hw.
  exists [1].
  apply (built_forward_shape wm table nc q l f index net n h w Hnet Ht);
    [lia | exact Hh | exact Hw |].
  destruct (build_inv _ _ _ _ _ _ _ _ Hnet) as (bs & Hbs & _).
  pose proof (construct_all_strides _ _ _ _ _ Hbs) as Hst.
  assert (Hh' : 1 <= ShapeRuntime.conv_extent h 3 2 1) by (apply conv_extent_pos; lia).
  assert (Hw' : 1 <= ShapeRuntime.conv_extent w 3 2 1) by (apply conv_extent_pos; lia).
  pose proof (extent_after_bounds _ Hst _ Hh') as Hah.
  pose proof (extent_after_bounds _ Hst _ Hw') as Haw.
  nia.
Qed.

(** Half width, on a batch of two 33x65 images. *)
Lemma build_shape_safe_half_width :
  exists net aux,
    MobileNetV2.build (1 # 2) MobileNetV2.the_cfgs 10 true false false [] = Ok net /\
    MobileNetV2.forward (RT := ShapeRuntime.runtime) net [2; 3; 33; 65]
    = Ok ([2; 10], aux).
Proof.
  eexists.
  refine ((fun H => match H with ex_intro _ aux Haux =>
             ex_intro _ aux (conj eq_refl Haux) end)
          (build_shape_safe (1 # 2) MobileNetV2.the_cfgs 10 true false false [] _ 2 33 65
             eq_refl the_cfgs_ratios _ _ _ _));
    lia.
Defined.

(** ** Spatial extents *)

(** X11.  A constructed block with a positive input channel count and an
    integer expansion ratio at least 1 maps [n, inp, h, w] to
    [n, oup, h', w'], where a stride of 1 keeps the spatial extents and a
    stride of 2 halves them, rounding up, provided the output holds more
    than one value per channel over the batch, as batch normalization in
    training mode requires; the addition of the shortcut never meets two
    different shapes. *)
Theorem block_stride_extent (inp oup stride t : Z) (q l f : bool)
    (b : InvertedResidual.t) (p : path) (n h w : Z) :
  InvertedResidual.__init__ inp oup stride (inject_Z t) q l f = Ok b ->
  0 < inp -> 1 <= t -> 1 <= n -> 1 <= h -> 1 <= w ->
  1 < n * ((h + stride - 1) / stride) * ((w + stride - 1) / stride) ->
  InvertedResidual.forward (RT := ShapeRuntime.runtime) p b [n; inp; h; w] =
  Ok (@V_Tensor ShapeRuntime.runtime
        [n; oup; (h + stride - 1) / stride; (w + stride - 1) / stride]) /\
  (stride = 1 -> (h + stride - 1) / stride = h) /\
  (stride = 2 -> (h + stride - 1) / stride = (h + 1) / 2).
Proof.
  intros Hb Hinp Ht Hn Hh Hw Hprod.
  pose proof (block_init_stride _ _ _ _ _ _ _ _ Hb) as Hs.
  assert (Hspos : 0 < stride) by lia.
  pose proof (conv_extent_3x3_le h stride Hspos Hh) as Hhle.
  pose proof (conv_extent_3x3_le w stride Hspos Hw) as Hwle.
  assert (Hh' : 1 <= ShapeRuntime.conv_extent h 3 stride 1) by (apply conv_extent_pos; lia).
  assert (Hw' : 1 <= ShapeRuntime.conv_extent w 3 stride 1) by (apply conv_extent_pos; lia).
  rewrite <- !conv_extent_3x3_ceil in Hprod by lia.
  rewrite (block_forward_shape inp oup stride t q l f b p n h w Hb);
    try lia;
    try (eapply values_per_channel; [exact Hn | | | exact Hprod]; lia).
  rewrite !conv_extent_3x3_ceil by lia.
  split; [reflexivity|]. split; intros ->.
  - replace (h + 1 - 1) with h by lia. apply Z.div_1_r.
  - f_equal. lia.
Qed.

(** The second block of the network on a 7x7 map. *)
Lemma block_stride_extent_7 :
  exists b,
    InvertedResidual.__init__ 16 24 2 (inject_Z 6) false false false = Ok b /\
    InvertedResidual.forward (RT := ShapeRuntime.runtime) [2%nat] b [1; 16; 7; 7] =
    Ok (@V_Tensor ShapeRuntime.runtime [1; 24; (7 + 2 - 1) / 2; (7 + 2 - 1) / 2]).
Proof.
  eexists. split; [reflexivity|].
  refine (proj1 (block_stride_extent 16 24 2 6 false false false _ [2%nat] 1 7 7
                   eq_refl _ _ _ _ _ _)); try lia. reflexivity.
Defined.

(** X12.  The stem and the seventeen blocks of a network the constructor
    returned reduce an input [n, 3, h, w] to
    [n, 320, ceil(h/32), ceil(w/32)], provided that map holds more than
    one value per channel over the batch, as batch normalization in
    training mode requires. *)
Theorem features_downsample_32 (nc : Z) (q l f : bool) (index : list Z)
    (net : MobileNetV2.t) (n h w : Z) :
  MobileNetV2.__init__ nc q l f index = Ok net ->
  1 <= n -> 1 <= h -> 1 <= w ->
  1 < n * ((h + 31) / 32) * ((w + 31) / 32) ->
  MobileNetV2.features_forward_from (RT := ShapeRuntime.runtime) [0%nat] 0
    (MobileNetV2.features net) (@V_Tensor ShapeRuntime.runtime [n; 3; h; w]) =
  Ok (@V_Tensor ShapeRuntime.runtime [n; 320; (h + 31) / 32; (w + 31) / 32]).
Proof.
  intros Hnet Hn Hh Hw Hprod.
  destruct (build_inv 1 MobileNetV2.the_cfgs nc q l f index net Hnet) as (bs & Hbs & ->).
  cbn [MobileNetV2.features].
  rewrite (built_features_shape 1 MobileNetV2.the_cfgs q l f bs n h w Hbs
             the_cfgs_ratios Hn Hh Hw)
    by (rewrite !the_cfgs_extent; exact Hprod).
  rewrite !the_cfgs_extent. reflexivity.
Qed.

(** A 224x224 image leaves the blocks as a 7x7 map. *)
Lemma features_downsample_32_at_224 :
  exists net,
    MobileNetV2.__init__ 1000 false false false [] = Ok net /\
    MobileNetV2.features_forward_from (RT := ShapeRuntime.runtime) [0%nat] 0
      (MobileNetV2.features net) (@V_Tensor ShapeRuntime.runtime [1; 3; 224; 224]) =
    Ok (@V_Tensor ShapeRuntime.runtime [1; 320; (224 + 31) / 32; (224 + 31) / 32]).
Proof.
  eexists. split; [reflexivity|].
  apply (features_downsample_32 1000 false false false [] _ 1 224 224 eq_refl);
    try lia. reflexivity.
Defined.

(** ** Batch normalization in training mode *)

(** A constructed block whose output holds a single value per channel
    raises the error of its batch normalization. *)
Lemma block_forward_single (inp oup stride t : Z) (q l f : bool)
    (b : InvertedResidual.t) (p : path) (n h w : Z) :
  InvertedResidual.__init__ inp oup stride (inject_Z t) q l f = Ok b ->
  0 < inp -> 0 < t -> 1 <= h -> 1 <= w ->
  n * ShapeRuntime.conv_extent h 3 stride 1 * ShapeRuntime.conv_extent w 3 stride 1 = 1 ->
  InvertedResidual.forward (RT := ShapeRuntime.runtime) p b [n; inp; h; w] =
  Raise ValueError.
Proof.
  intros Hb Hinp Ht Hh Hw Hone.
  pose proof (block_init_stride _ _ _ _ _ _ _ _ Hb) as Hs.
  revert Hb. unfold InvertedResidual.__init__.
  destruct (negb ((stride =? 1) || (stride =? 2))); [discriminate|].
  assert (Hhid : py_round (inject_Z inp * inject_Z t) = inp * t)
    by (rewrite <- inject_Z_mult; apply py_round_Z).
  rewrite Hhid. clear Hhid.
  assert (Hpos : 0 < inp * t) by (apply Z.mul_pos_pos; lia).
  remember (inp * t) as hid eqn:Ehid.
  destruct (Qeq_bool (inject_Z t) 1) eqn:Et; intros H; injection H as <-.
  - assert (t = 1).
    { apply Qeq_bool_iff in Et. apply (inject_Z_injective t 1). exact Et. }
    assert (Ehid' : hid = inp) by lia. clear Ehid. subst hid.
    unfold InvertedResidual.forward, InvertedResidual.stages.
    cbn [InvertedResidual.expand_ratio InvertedResidual.conv InvertedResidual.identity].
    rewrite Et.
    unfold Sequential_index_call, Sequential_slice_call, Sequential_get.
    cbn [nth_error firstn skipn Nat.sub bind Sequential_forward_from].
    shape_step.
    rewrite bn_call_single by exact Hone. reflexivity.
  - clear Ehid.
    unfold InvertedResidual.forward, InvertedResidual.stages.
    cbn [InvertedResidual.expand_ratio InvertedResidual.conv InvertedResidual.identity].
    rewrite Et.
    unfold Sequential_index_call, Sequential_slice_call, Sequential_get.
    cbn [nth_error firstn skipn Nat.sub bind Sequential_forward_from].
    shape_step. rewrite ?conv_extent_1x1.
    destruct (Z.eq_dec (n * h * w) 1) as [Hin | Hin].
    + rewrite bn_call_single by exact Hin. reflexivity.
    + do 3 shape_step.
      rewrite bn_call_single by exact Hone. reflexivity.
Qed.

(** A chain of constructed blocks whose output holds a single value per
    channel: a batch normalization inside one of them raises, or the chain
    returns that output. *)
Lemma blocks_forward_single (q l f : bool) (p : path) (n : Z)
    (calls : list block_call) :
  forall (bs : list InvertedResidual.t) (i : nat) (c h w : Z),
    construct_all q l f calls = Ok bs ->
    chained c calls = true -> 1 <= n -> 1 <= h -> 1 <= w ->
    n * extent_after calls h * extent_after calls w = 1 ->
    MobileNetV2.features_forward_from (RT := ShapeRuntime.runtime) p i
      (map M_InvertedResidual bs) (@V_Tensor ShapeRuntime.runtime [n; c; h; w]) =
    Raise ValueError \/
    MobileNetV2.features_forward_from (RT := ShapeRuntime.runtime) p i
      (map M_InvertedResidual bs) (@V_Tensor ShapeRuntime.runtime [n; c; h; w]) =
    Ok (@V_Tensor ShapeRuntime.runtime
          [n; last_channel c calls; extent_after calls h; extent_after calls w]).
Proof.
  induction calls as [| [[[inp oup] stride] t] calls IH];
    intros bs i c h w Hbs Hch Hn Hh Hw Hone.
  - simpl in Hbs. injection Hbs as <-. right. reflexivity.
  - simpl in Hbs. bind_inv. injection Hbs as <-.
    simpl in Hch. repeat (apply andb_true_iff in Hch; destruct Hch as [Hch ?]).
    apply Z.eqb_eq in Hch. subst c.
    match goal with
    | Hb : InvertedResidual.__init__ _ _ _ _ _ _ _ = Ok ?b,
      Hr : construct_all _ _ _ calls = Ok ?r |- _ =>
        rename Hb into Hblock; rename Hr into Hrest; rename b into blk; rename r into rest
    end.
    pose proof (block_init_stride _ _ _ _ _ _ _ _ Hblock) as Hs.
    assert (Hspos : 0 < stride) by lia.
    assert (Hh' : 1 <= ShapeRuntime.conv_extent h 3 stride 1) by (apply conv_extent_pos; lia).
    assert (Hw' : 1 <= ShapeRuntime.conv_extent w 3 stride 1) by (apply conv_extent_pos; lia).
    pose proof (conv_extent_3x3_le h stride Hspos Hh) as Hhle.
    pose proof (conv_extent_3x3_le w stride Hspos Hw) as Hwle.
    rewrite !extent_after_cons in Hone. cbv beta iota in Hone.
    cbn [map MobileNetV2.features_forward_from MobileNetV2.Module_call as_tensor bind].
    destruct (Z.eq_dec (n * ShapeRuntime.conv_extent h 3 stride 1
                          * ShapeRuntime.conv_extent w 3 stride 1) 1) as [Hout | Hout].
    + left.
      rewrite (block_forward_single inp oup stride t q l f blk (p ++ [i]) n h w Hblock)
        by (assumption || lia).
      reflexivity.
    + assert (Hin : n * h * w <> 1).
      { apply (values_per_channel n (ShapeRuntime.conv_extent h 3 stride 1)
                 (ShapeRuntime.conv_extent w 3 stride 1)); try lia; nia. }
      rewrite (block_forward_shape inp oup stride t q l f blk (p ++ [i]) n h w Hblock)
        by (assumption || lia).
      cbn [bind]. rewrite !extent_after_cons. cbv beta iota.
      apply (IH rest (S i) oup _ _ Hrest); assumption.
Qed.

(** The forward pass of a network the builder returned, on an input
    whose final map holds a single value per channel. *)
Lemma built_forward_single (wm : Q) (table : list (Z * Z * Z * Z)) (nc : Z) (q l f : bool)
    (index : list Z) (net : MobileNetV2.t) (n h w : Z) :
  let ch0 := _make_divisible (32 * wm) (MobileNetV2.divisor_of wm) None in
  let calls := fst (table_calls wm table ch0) in
  MobileNetV2.build wm table nc q l f index = Ok net ->
  Forall (fun row : Z * Z * Z * Z => let '(t, _, _, _) := row in 1 <= t) table ->
  1 <= n -> 1 <= h -> 1 <= w ->
  n * extent_after calls (ShapeRuntime.conv_extent h 3 2 1)
    * extent_after calls (ShapeRuntime.conv_extent w 3 2 1) = 1 ->
  MobileNetV2.forward (RT := ShapeRuntime.runtime) net [n; 3; h; w] = Raise ValueError.
Proof.
  intros ch0 calls Hnet Ht Hn Hh Hw Hone.
  destruct (build_inv _ _ _ _ _ _ _ _ Hnet) as (bs & Hbs & ->).
  fold ch0 in Hbs |- *. fold calls in Hbs.
  assert (Hch0 : 0 < ch0).
  { apply make_divisible_pos. unfold MobileNetV2.divisor_of.
    destruct (Qeq_bool wm (1 # 10)); lia. }
  destruct (table_calls_chained wm table ch0 Hch0 Ht) as [Hchain Hlast].
  fold calls in Hchain, Hlast.
  assert (Hch : 0 < snd (table_calls wm table ch0))
    by (apply table_calls_pos; assumption).
  assert (Hh' : 1 <= ShapeRuntime.conv_extent h 3 2 1) by (apply conv_extent_pos; lia).
  assert (Hw' : 1 <= ShapeRuntime.conv_extent w 3 2 1) by (apply conv_extent_pos; lia).
  pose proof (construct_all_strides _ _ _ _ _ Hbs) as Hst.
  pose proof (extent_after_bounds calls Hst _ Hh') as Hah.
  pose proof (extent_after_bounds calls Hst _ Hw') as Haw.
  unfold MobileNetV2.forward, MobileNetV2.logits.
  cbn [MobileNetV2.features MobileNetV2.conv MobileNetV2.avgpool MobileNetV2.classifier
       MobileNetV2.features_forward_from MobileNetV2.Module_call].
  unfold conv_3x3_bn, Sequential_call.
  cbn [Sequential_forward_from bind].
  erewrite conv_call_shape by shape_side.
  cbn [bind in_channels out_channels groups stride kernel_size padding].
  destruct (Z.eq_dec (n * ShapeRuntime.conv_extent h 3 2 1
                        * ShapeRuntime.conv_extent w 3 2 1) 1) as [Hstem | Hstem].
  - rewrite bn_call_single by exact Hstem. reflexivity.
  - do 2 shape_step.
    destruct (blocks_forward_single q l f [0%nat] n calls bs 1 ch0 _ _
                Hbs Hchain Hn Hh' Hw' Hone) as [Hraise | Hblocks].
    + rewrite Hraise. reflexivity.
    + rewrite Hblocks, Hlast. cbn [bind].
      unfold conv_1x1_bn, Sequential_index_call, Sequential_tail_call, Sequential_get.
      cbn [nth_error skipn Sequential_forward_from bind].
      shape_step. rewrite ?conv_extent_1x1.
      rewrite bn_call_single by exact Hone. reflexivity.
Qed.

(** X16.  A network the constructor returned is in training mode, where
    batch normalization needs more than one value per channel: on an input
    [n, 3, h, w] whose final map holds a single one, which is a single
    image of at most 32x32, the forward call raises [ValueError]. *)
Theorem forward_single_value_raises (nc : Z) (q l f : bool) (index : list Z)
    (net : MobileNetV2.t) (n h w : Z) :
  MobileNetV2.__init__ nc q l f index = Ok net ->
  1 <= n -> 1 <= h -> 1 <= w ->
  n * ((h + 31) / 32) * ((w + 31) / 32) = 1 ->
  (n = 1 /\ h <= 32 /\ w <= 32) /\
  MobileNetV2.forward (RT := ShapeRuntime.runtime) net [n; 3; h; w] = Raise ValueError.
Proof.
  intros Hnet Hn Hh Hw Hone. split.
  - assert (Hch : 1 <= (h + 31) / 32) by (apply Z.div_le_lower_bound; lia).
    assert (Hcw : 1 <= (w + 31) / 32) by (apply Z.div_le_lower_bound; lia).
    assert (Hn1 : n = 1) by nia. subst n.
    assert (Hh1 : (h + 31) / 32 = 1) by nia.
    assert (Hw1 : (w + 31) / 32 = 1) by nia.
    clear Hone. split; [reflexivity|].
    split; Z.div_mod_to_equations; lia.
  - apply (built_forward_single 1 MobileNetV2.the_cfgs nc q l f index net n h w Hnet
             the_cfgs_ratios Hn Hh Hw).
    rewrite !the_cfgs_extent. exact Hone.
Qed.

(** One 32x32 image. *)
Lemma forward_single_value_raises_32 :
  exists net,
    MobileNetV2.__init__ 10 false false false [] = Ok net /\
    MobileNetV2.forward (RT := ShapeRuntime.runtime) net [1; 3; 32; 32] = Raise ValueError.
Proof.
  eexists. split; [reflexivity|].
  refine (proj2 (forward_single_value_raises 10 false false false [] _ 1 32 32
                   eq_refl _ _ _ _)); try lia. reflexivity.
Defined.

(** ** Every channel count is a multiple of the divisor *)

Lemma block_channels_divisible (d inp oup stride t : Z) (q l f : bool)
    (b : InvertedResidual.t) :
  InvertedResidual.__init__ inp oup stride (inject_Z t) q l f = Ok b ->
  (d | inp) -> (d | oup) ->
  Forall (fun c => (d | in_channels (lq_conv c)) /\ (d | out_channels (lq_conv c)))
         (flat_map LQ_of_layer (InvertedResidual.conv b)).
Proof.
  intros Hb Hi Ho. revert Hb. unfold InvertedResidual.__init__.
  destruct (negb ((stride =? 1) || (stride =? 2))); [discriminate|].
  assert (Hhid : py_round (inject_Z inp * inject_Z t) = inp * t)
    by (rewrite <- inject_Z_mult; apply py_round_Z).
  rewrite Hhid.
  assert (Hh : (d | inp * t)) by (apply Z.divide_mul_l; exact Hi).
  destruct (Qeq_bool (inject_Z t) 1); intros H; injection H as <-; simpl;
    repeat (constructor; [split; simpl; assumption|]); constructor.
Qed.

Lemma construct_all_divisible (d : Z) (q l f : bool) (cs : list block_call) :
  forall bs : list InvertedResidual.t,
    construct_all q l f cs = Ok bs ->
    Forall (fun call : block_call =>
              let '(inp, oup, _, _) := call in (d | inp) /\ (d | oup)) cs ->
    Forall (fun c => (d | in_channels (lq_conv c)) /\ (d | out_channels (lq_conv c)))
           (flat_map LQ_of_module (map M_InvertedResidual bs)).
Proof.
  induction cs as [| [[[inp oup] stride] t] cs IH]; intros bs Hbs Hcs; simpl in Hbs.
  - injection Hbs as <-. constructor.
  - bind_inv. injection Hbs as <-.
    inversion Hcs as [| ? ? Hhead Hrest]; subst.
    simpl in Hhead. destruct Hhead as [Hi Ho].
    simpl. apply Forall_app. split.
    + eapply block_channels_divisible; eassumption.
    + apply IH; assumption.
Qed.

Lemma table_calls_divisible (wm : Q) (table : list (Z * Z * Z * Z)) (ch : Z) :
  (MobileNetV2.divisor_of wm | ch) ->
  Forall (fun call : block_call =>
            let '(inp, oup, _, _) := call in
            (MobileNetV2.divisor_of wm | inp) /\ (MobileNetV2.divisor_of wm | oup))
         (fst (table_calls wm table ch)) /\
  (MobileNetV2.divisor_of wm | snd (table_calls wm table ch)).
Proof.
  revert ch. induction table as [| [[[t c] n] s] rows IH]; intros ch Hch; simpl.
  - split; [constructor | exact Hch].
  - set (oc := _make_divisible (inject_Z c * wm) (MobileNetV2.divisor_of wm) None).
    assert (Hoc : (MobileNetV2.divisor_of wm | oc))
      by apply make_divisible_divides.
    destruct (Z.to_nat n) as [| k]; simpl.
    + destruct (IH ch Hch) as [I1 I2].
      destruct (table_calls wm rows ch) as [cs' ch2]; simpl in *. auto.
    + destruct (IH oc Hoc) as [I1 I2].
      destruct (table_calls wm rows oc) as [cs' ch2]; simpl in *.
      split; [|exact I2].
      constructor; [auto|]. apply Forall_app. split; [|exact I1].
      apply Forall_forall. intros x Hx. apply repeat_spec in Hx. subst x. auto.
Qed.

(** X13.  Whatever the width multiplier and the stage table, every
    quantization-aware convolution of a constructed network has input and
    output channel counts that are multiples of the divisor (4 when the
    width multiplier is 0.1, else 8), and so have the output of the stem
    and the input of the classifier. *)
Theorem network_channels_divisible (wm : Q) (table : list (Z * Z * Z * Z)) (nc : Z)
    (q l f : bool) (index : list Z) (net : MobileNetV2.t) :
  MobileNetV2.build wm table nc q l f index = Ok net ->
  let d := if Qeq_bool wm (1 # 10) then 4 else 8 in
  Forall (fun c => (d | in_channels (lq_conv c)) /\ (d | out_channels (lq_conv c)))
         (LQ_of_network net) /\
  (exists stem_out rest,
     MobileNetV2.features net =
       M_Sequential (conv_3x3_bn 3 stem_out 2 q l f) :: rest /\
     (d | stem_out)) /\
  (d | in_features (MobileNetV2.classifier net)).
Proof.
  intros Hnet d. rewrite build_calls in Hnet. cbv zeta in Hnet.
  set (ch0 := _make_divisible (32 * wm) (MobileNetV2.divisor_of wm) None) in *.
  assert (Hch0 : (MobileNetV2.divisor_of wm | ch0))
    by apply make_divisible_divides.
  destruct (table_calls_divisible wm table ch0 Hch0) as [Hcalls Hlast].
  destruct (construct_all q l f (fst (table_calls wm table ch0))) as [bs | e] eqn:Hbs;
    cbn [bind] in Hnet; [|discriminate].
  injection Hnet as <-.
  assert (Hhead : (d | MobileNetV2.head_channel wm)).
  { unfold MobileNetV2.head_channel.
    destruct (Qlt_le_dec 1 wm).
    - apply make_divisible_divides.
    - unfold d. destruct (Qeq_bool wm (1 # 10));
        [exists 320; reflexivity | exists 160; reflexivity]. }
  split; [|split].
  - unfold LQ_of_network. cbn [MobileNetV2.features MobileNetV2.conv].
    apply Forall_app. split.
    + simpl. apply (construct_all_divisible _ q l f _ bs Hbs). exact Hcalls.
    + simpl. constructor; [|constructor]. simpl. split; assumption.
  - exists ch0. eexists. split; [reflexivity | exact Hch0].
  - exact Hhead.
Qed.

(** Half width: all 51 convolutions have channel counts divisible by 8. *)
Lemma network_channels_divisible_half :
  exists net,
    MobileNetV2.build (1 # 2) MobileNetV2.the_cfgs 10 false true false [] = Ok net /\
    Forall (fun c => (8 | in_channels (lq_conv c)) /\ (8 | out_channels (lq_conv c)))
           (LQ_of_network net).
Proof.
  eexists. split; [reflexivity|].
  exact (proj1 (network_channels_divisible (1 # 2) MobileNetV2.the_cfgs 10
                  false true false [] _ eq_refl)).
Defined.

(** ** The flags reach every quantization-aware convolution unchanged *)

Lemma block_flags_uniform (inp oup stride : Z) (t : Q) (q l f : bool)
    (b : InvertedResidual.t) :
  InvertedResidual.__init__ inp oup stride t q l f = Ok b ->
  Forall (fun c => is_qt c = q /\ lq c = l /\ fwlq c = f)
         (flat_map LQ_of_layer (InvertedResidual.conv b)).
Proof.
  unfold InvertedResidual.__init__.
  destruct (negb ((stride =? 1) || (stride =? 2))); [discriminate|].
  destruct (Qeq_bool t 1); intros H; injection H as <-; simpl;
    repeat (constructor; [repeat split|]); constructor.
Qed.

Lemma construct_all_flags_uniform (q l f : bool) (cs : list block_call) :
  forall bs : list InvertedResidual.t,
    construct_all q l f cs = Ok bs ->
    Forall (fun c => is_qt c = q /\ lq c = l /\ fwlq c = f)
           (flat_map LQ_of_module (map M_InvertedResidual bs)).
Proof.
  induction cs as [| [[[inp oup] stride] t] cs IH]; intros bs Hbs; simpl in Hbs.
  - injection Hbs as <-. constructor.
  - bind_inv. injection Hbs as <-. simpl. apply Forall_app. split.
    + eapply block_flags_uniform; eassumption.
    + apply IH; assumption.
Qed.

(** X14.  Whatever the width multiplier and the stage table, every
    quantization-aware convolution of a constructed network, the head
    included, carries the three flags exactly as the constructor received
    them: [is_qt] as [is_qt], [lq] as [lq], [fwlq] as [fwlq], although
    [conv_1x1_bn] declares [lq] before [is_qt]; and the stem holds no such
    convolution. *)
Theorem network_flags_uniform (wm : Q) (table : list (Z * Z * Z * Z)) (nc : Z)
    (q l f : bool) (index : list Z) (net : MobileNetV2.t) :
  MobileNetV2.build wm table nc q l f index = Ok net ->
  Forall (fun c => is_qt c = q /\ lq c = l /\ fwlq c = f) (LQ_of_network net) /\
  (exists stem rest,
     MobileNetV2.features net = stem :: rest /\ LQ_of_module stem = []) /\
  (exists c, flat_map LQ_of_layer (MobileNetV2.conv net) = [c]).
Proof.
  intros Hnet. rewrite build_calls in Hnet. cbv zeta in Hnet.
  destruct (construct_all q l f _) as [bs | e] eqn:Hbs;
    cbn [bind] in Hnet; [|discriminate].
  injection Hnet as <-. split; [|split].
  - unfold LQ_of_network. cbn [MobileNetV2.features MobileNetV2.conv].
    apply Forall_app. split.
    + simpl. apply (construct_all_flags_uniform q l f _ bs Hbs).
    + simpl. constructor; [repeat split | constructor].
  - eexists. eexists. split; reflexivity.
  - eexists. reflexivity.
Qed.

(** [is_qt] set and [lq] not: no convolution holds them swapped. *)
Lemma network_flags_uniform_is_qt_only :
  exists net,
    MobileNetV2.__init__ 10 true false false [] = Ok net /\
    Forall (fun c => is_qt c = true /\ lq c = false /\ fwlq c = false)
           (LQ_of_network net).
Proof.
  eexists. split; [reflexivity|].
  exact (proj1 (network_flags_uniform 1 MobileNetV2.the_cfgs 10 true false false []
                  _ eq_refl)).
Defined.

(** ** Where the builder places the shortcut *)

Lemma construct_all_repeat_identity (q l f : bool) (oc t : Z) (k : nat) :
  forall bs : list InvertedResidual.t,
    construct_all q l f (repeat (oc, oc, 1, t) k) = Ok bs ->
    Forall (fun b => InvertedResidual.identity b = true) bs.
Proof.
  induction k as [| k IH]; intros bs Hbs; simpl in Hbs.
  - injection Hbs as <-. constructor.
  - bind_inv. injection Hbs as <-. constructor.
    + destruct (block_init_fields _ _ _ _ _ _ _ _ Ha) as [-> _].
      rewrite !Z.eqb_refl. reflexivity.
    + apply IH. assumption.
Qed.

(** X15.  When the builder gets through a row [(t, c, n, s)] met with
    running channel count [ch], it has appended exactly [n] blocks (none
    when [n <= 0]); every block after the first has the shortcut, and the
    first has it exactly when [s = 1] and [ch] already equals the rounded
    output channel count. *)
Theorem row_shortcuts (wm : Q) (q l f : bool) (t c n s : Z)
    (layers layers' : list Module_) (ch ch' : Z) :
  MobileNetV2.row_body wm q l f (t, c, n, s) (layers, ch) = Ok (layers', ch') ->
  let oc := _make_divisible (inject_Z c * wm) (MobileNetV2.divisor_of wm) None in
  exists bs : list InvertedResidual.t,
    layers' = layers ++ map M_InvertedResidual bs /\
    length bs = Z.to_nat n /\
    Forall (fun b => InvertedResidual.identity b = true) (tl bs) /\
    (forall first, hd_error bs = Some first ->
       InvertedResidual.identity first = (s =? 1) && (ch =? oc)).
Proof.
  intros Hrow oc. rewrite row_body_calls in Hrow. unfold row_calls in Hrow.
  fold oc in Hrow.
  destruct (Z.to_nat n) as [| k]; simpl in Hrow.
  - injection Hrow as <- <-. exists []. simpl.
    repeat split; [constructor | discriminate].
  - bind_inv.
    match goal with
    | Hf : InvertedResidual.__init__ ch oc s _ q l f = Ok ?first,
      Hr : construct_all q l f (repeat _ k) = Ok ?rest,
      Hc : Ok (?first :: ?rest) = Ok _ |- _ =>
        injection Hc as <-; injection Hrow as <- <-;
        exists (first :: rest); repeat split;
        [ simpl; f_equal; rewrite (construct_all_length _ _ _ _ _ Hr);
          apply repeat_length
        | simpl; eapply construct_all_repeat_identity; exact Hr
        | simpl; intros b Hb; injection Hb as <-;
          apply (block_init_fields _ _ _ _ _ _ _ _ Hf) ]
    end.
Qed.

(** The third row of the stage table, three blocks from 24 to 32 channels
    with first stride 2: the first block has no shortcut. *)
Lemma row_shortcuts_third_row :
  exists (layers' : list Module_) (ch' : Z) (bs : list InvertedResidual.t),
    MobileNetV2.row_body 1 false false false (6, 32, 3, 2) ([], 24) = Ok (layers', ch') /\
    layers' = map M_InvertedResidual bs /\
    length bs = 3%nat /\
    Forall (fun b => InvertedResidual.identity b = true) (tl bs) /\
    (forall first, hd_error bs = Some first ->
       InvertedResidual.identity first = false).
Proof.
  eexists. eexists.
  destruct (row_shortcuts 1 false false false 6 32 3 2 [] _ 24 _ eq_refl)
    as (bs & Hl & Hlen & Hrest & Hfirst).
  exists bs. split; [reflexivity|]. repeat split; assumption.
Defined.
